(** * One Max with DEAP: a shallow embedding of [main.py]

    The script builds a population of bit vectors, evaluates it, and then
    runs the generational loop (select, clone, crossover, mutation,
    re-evaluation, replacement, statistics) until an individual reaches the
    target fitness or the generation cap is hit.

    Python objects are mutable and shared by reference, so the embedding keeps
    an explicit object store: an individual is a cell of the store, a
    population is a list of addresses.  The random source and the operators
    that the toolbox takes from the DEAP library form an interface, [Tools],
    over which the loop is written.  The statistics of a generation are
    computed on binary64 floats, as Python computes them. *)

From Stdlib Require Import ZArith QArith Qabs Lia.
From Stdlib Require Import SpecFloat.
From stdpp Require Import base list.

(** ** Exceptions and the error monad *)

Inductive exn : Type :=
  | ValueError          (* min()/max() of an empty sequence *)
  | IndexError          (* fitness.values[0] on a deleted fitness *)
  | ZeroDivisionError   (* sum(fits) / 0 *)
  | LookupFault.        (* an address or position outside its container;
                           never raised by a well-formed state *)

Inductive result (A : Type) : Type :=
  | Ok (a : A)
  | Raise (e : exn).
Arguments Ok {A} a.
Arguments Raise {A} e.

#[global] Instance result_ret : MRet result := λ A a, Ok a.
#[global] Instance result_bind : MBind result := λ A B f m,
  match m with
  | Ok a => f a
  | Raise e => Raise e
  end.

Definition from_option {A} (e : exn) (o : option A) : result A :=
  match o with
  | Some a => Ok a
  | None => Raise e
  end.

(** [for x in l: acc = f(acc, x)], stopping at the first exception. *)
Fixpoint foldM {A B} (f : A → B → result A) (l : list B) (acc : A) : result A :=
  match l with
  | [] => Ok acc
  | x :: l' => acc' ← f acc x; foldM f l' acc'
  end.

(** [[f(x) for x in l]], stopping at the first exception. *)
Fixpoint forM {A B} (f : A → result B) (l : list A) : result (list B) :=
  match l with
  | [] => Ok []
  | x :: l' => y ← f x; ys ← forM f l'; Ok (y :: ys)
  end.

(** ** Individuals and the object store *)

(** Modelled from the spec: [base.Fitness] and the classes that
    [creator.create] builds from it (DEAP, not part of [main.py]).  An
    [Individual] is a list of alleles that carries a fitness of its own.  A
    fitness holds a tuple of values; [del fitness.values] empties the tuple,
    and [fitness.valid] says that the tuple is not empty.  The single weight
    is [1.0], so weighted and unweighted values coincide; the values are sums
    of integer alleles and are kept as integers. *)
Record Individual : Type := mkInd {
  alleles : list Z;
  wvalues : list Z
}.

#[global] Instance Individual_eq_dec : EqDecision Individual.
Proof. solve_decision. Defined.

(** Modelled from the spec: [Fitness.valid] (DEAP), read as
    [ind.fitness.valid]: the fitness holds values. *)
Definition valid (ind : Individual) : bool :=
  match wvalues ind with
  | [] => false
  | _ :: _ => true
  end.

Abbreviation ref := nat (only parsing).
Abbreviation Heap := (list Individual) (only parsing).

Definition deref (h : Heap) (r : ref) : result Individual :=
  from_option LookupFault (h !! r).

(** In-place replacement of the alleles of the object at [r]. *)
Definition set_alleles (h : Heap) (r : ref) (a : list Z) : Heap :=
  alter (λ ind, mkInd a (wvalues ind)) r h.

(** Modelled from the spec: the setter of [Fitness.values] (DEAP),
    [ind.fitness.values = fit]. *)
Definition set_values (h : Heap) (r : ref) (fit : list Z) : Heap :=
  alter (λ ind, mkInd (alleles ind) fit) r h.

(** Modelled from the spec: the deleter of [Fitness.values] (DEAP),
    [del ind.fitness.values]: the invalidation. *)
Definition del_values (h : Heap) (r : ref) : Heap := set_values h r [].

(** Modelled from the spec: the getter of [Fitness.values] (DEAP), indexed
    as in [ind.fitness.values[0]]; a deleted fitness has no first value. *)
Definition values0 (h : Heap) (r : ref) : result Z :=
  ind ← deref h r; from_option IndexError (wvalues ind !! 0%nat).

(** A fresh object: the store grows by one cell. *)
Definition alloc (h : Heap) (ind : Individual) : Heap * ref :=
  (h ++ [ind], length h).

(** Modelled from the spec: [toolbox.clone], which DEAP binds to
    [copy.deepcopy] (not part of [main.py]).  The clone is a new object with
    a copy of the alleles and of the fitness. *)
Definition clone (h : Heap) (r : ref) : result (Heap * ref) :=
  ind ← deref h r; Ok (alloc h ind).

(** [list(map(toolbox.clone, offspring))] *)
Fixpoint clone_all (h : Heap) (rs : list ref) : result (Heap * list ref) :=
  match rs with
  | [] => Ok (h, [])
  | r :: rs' =>
      '(h1, c) ← clone h r;
      '(h2, cs) ← clone_all h1 rs';
      Ok (h2, c :: cs)
  end.

(** The individuals a list of addresses denotes. *)
Definition view (h : Heap) (rs : list ref) : result (list Individual) :=
  forM (deref h) rs.

(** ** The evaluator *)

(** [sum(individual)] *)
Definition py_sumZ (l : list Z) : Z := foldl Z.add 0%Z l.

(** [def evalOneMax(individual): return sum(individual),] *)
Definition evalOneMax (individual : list Z) : list Z := [py_sumZ individual].

(** ** Sequence helpers *)

(** [l[::2]] *)
Fixpoint stride2 {A} (l : list A) : list A :=
  match l with
  | [] => []
  | x :: l' => x :: match l' with
                    | [] => []
                    | _ :: l'' => stride2 l''
                    end
  end.

(** [zip(offspring[::2], offspring[1::2])] *)
Definition adjacent_pairs {A} (l : list A) : list (A * A) :=
  zip (stride2 l) (stride2 (drop 1 l)).

(** [max(fits)] on integers; the first maximal element wins. *)
Definition py_maxZ (l : list Z) : result Z :=
  match l with
  | [] => Raise ValueError
  | x :: l' => Ok (foldl (λ m y, if (m <? y)%Z then y else m) x l')
  end.

(** ** Floating-point numbers *)

(** A Python [float] is a binary64 number of IEEE 754: 53 bits of precision
    and exponents below 1024.  [SpecFloat] of the Standard Library specifies
    the format and its operations, each one rounded to nearest, ties to
    even. *)
Abbreviation float := spec_float (only parsing).

Definition prec : Z := 53.
Definition emax : Z := 1024.

(** The float of an integer, as in [float / int] and [float ** int], and in
    the product with the weight [1.0] by which DEAP turns the evaluator's
    integer into a fitness value: the nearest float.  (For an integer beyond
    the largest float Python raises [OverflowError]; here it becomes an
    infinity.) *)
Definition float_of_int (z : Z) : float := binary_normalize prec emax z 0 false.

(** [x + y], [x - y], [x * y], [x / y] for a divisor other than zero, and
    [abs(x)]. *)
Definition float_add : float → float → float := SFadd prec emax.
Definition float_sub : float → float → float := SFsub prec emax.
Definition float_mul : float → float → float := SFmul prec emax.
Definition float_div : float → float → float := SFdiv prec emax.
Definition float_abs : float → float := SFabs.

(** The literal [0.5]. *)
Definition half : float := S754_finite false (2 ^ 52) (-53).

(** ** The statistics of a generation *)

(** [sum(xs)] on floats: the additions run from left to right and start
    from the integer [0].  (From version 3.12 on CPython also carries a
    correction for the rounding errors of the additions; nothing is
    corrected while the additions are exact, as they are on fitness values
    that are small integers.) *)
Definition py_sum (l : list float) : float := foldl float_add (float_of_int 0) l.

(** [min(fits)] and [max(fits)]; the first extremal element wins. *)
Definition py_min (l : list Q) : result Q :=
  match l with
  | [] => Raise ValueError
  | x :: l' => Ok (foldl (λ m y, if Qlt_le_dec y m then y else m) x l')
  end.

Definition py_max (l : list Q) : result Q :=
  match l with
  | [] => Raise ValueError
  | x :: l' => Ok (foldl (λ m y, if Qlt_le_dec m y then y else m) x l')
  end.

(** What one generation prints.  The fitness values are integers, and [min]
    and [max] pick one of them: the two are kept as exact numbers.  The mean
    and the standard deviation are floats. *)
Record Report : Type := mkReport {
  r_min : Q;
  r_max : Q;
  r_mean : float;
  r_std : float
}.

(** Lines 178-186 of [main.py]:
<<
    length = len(pop)          # fits has one entry per member of pop
    mean = sum(fits) / length
    sum2 = sum(x*x for x in fits)
    std = abs(sum2 / length - mean**2)**0.5
    print(min(fits)); print(max(fits)); print(mean); print(std)
>>
    [fits] holds the fitness values, integers that DEAP keeps as floats.
    [pow] is [**] on floats: CPython answers with what [pow] of the C
    library computes, and IEEE 754 does not fix its last bit, so the
    function is a parameter.  (CPython raises [OverflowError] when [pow]
    overflows, which takes a mean of 2^512 or more; here the infinite
    result is kept.) *)
Definition stats (pow : float → float → float) (fits : list Z) : result Report :=
  if (length fits =? 0)%nat then Raise ZeroDivisionError else
  let xs := map float_of_int fits in
  let len := float_of_int (Z.of_nat (length fits)) in
  let mean := float_div (py_sum xs) len in
  let sum2 := py_sum (map (λ x, float_mul x x) xs) in
  let std := pow (float_abs (float_sub (float_div sum2 len)
                                       (pow mean (float_of_int 2)))) half in
  mn ← py_min (map inject_Z fits);
  mx ← py_max (map inject_Z fits);
  Ok (mkReport mn mx mean std).


(** ** The random source and the DEAP operators *)

(** What [main.py] takes from outside: [random.random] and [random.randint]
    over a state [RNG] that every draw advances, the three operators of
    [deap.tools] that the toolbox registers, and the power function behind
    [**] on floats.  A draw of [random.random] lies in [0, 1) and is read as
    a rational.  [selTournament tournsize] reads the individuals and answers
    with the positions of the chosen ones; [cxTwoPoint] and
    [mutFlipBit indpb] recombine alleles in place and do not touch the
    fitness.  Every operator is a total function of its arguments and of the
    state of the random source: each call returns. *)
Class Tools (RNG : Type) : Type := {
  random_random : RNG → Q * RNG;
  random_randint : Z → Z → RNG → Z * RNG;
  selTournament : nat → list Individual → nat → RNG → list nat * RNG;
  cxTwoPoint : list Z → list Z → RNG → (list Z * list Z) * RNG;
  mutFlipBit : Q → list Z → RNG → list Z * RNG;
  float_pow : float → float → float
}.

(** ** The generational loop *)

(** The state of [main] at the loop test: the store, the population [pop],
    the random source, the list [fits], the counter [g] and what has been
    printed so far (the generation number with its statistics). *)
Record State {RNG : Type} : Type := mkState {
  heap : Heap;
  pop : list ref;
  rng : RNG;
  fits : list Z;
  g : nat;
  out : list (nat * Report)
}.
Arguments State RNG : clear implicits.
Arguments mkState {RNG} heap pop rng fits g out.

(** The events of one variation phase: the pairs [toolbox.mate] was applied
    to, and the individuals [toolbox.mutate] was applied to. *)
Record Touched : Type := mkTouched {
  mated : list (ref * ref);
  mutated : list ref
}.

Section Evolution.

Context {RNG : Type} `{T : Tools RNG}.

(** Lines 62-66 and 86-89: the toolbox. *)
Definition attr_bool : RNG → Z * RNG := random_randint 0 1.
Definition evaluate : list Z → list Z := evalOneMax.
Definition mate : list Z → list Z → RNG → (list Z * list Z) * RNG := cxTwoPoint.
Definition mutate : list Z → RNG → list Z * RNG := mutFlipBit (5 # 100).
Definition select : list Individual → nat → RNG → list nat * RNG := selTournament 3.

(** Modelled from the spec: [tools.initRepeat] (DEAP): call the generator
    [n] times and collect the results in order. *)
Fixpoint initRepeat {A} (func : RNG → A * RNG) (n : nat) (s : RNG) : list A * RNG :=
  match n with
  | O => ([], s)
  | S n' =>
      let '(x, s1) := func s in
      let '(xs, s2) := initRepeat func n' s1 in
      (x :: xs, s2)
  end.

(** [toolbox.individual]: 100 alleles, and a fresh fitness without values. *)
Definition individual (s : RNG) : Individual * RNG :=
  let '(a, s1) := initRepeat attr_bool 100 s in (mkInd a [], s1).

(** [toolbox.population(n=...)]: every individual is a new object. *)
Definition population (n : nat) (h : Heap) (s : RNG) : Heap * list ref * RNG :=
  let '(inds, s1) := initRepeat individual n s in
  (h ++ inds, seq (length h) (length inds), s1).

(** Lines 101-103: [list(map(toolbox.evaluate, pop))] is computed first,
    then assigned individual by individual. *)
Definition assign (h : Heap) (p : ref * list Z) : result Heap :=
  _ ← deref h p.1; Ok (set_values h p.1 p.2).

Definition evaluate_population (h : Heap) (pop : list ref) : result Heap :=
  fitnesses ← forM (λ r, ind ← deref h r; Ok (evaluate (alleles ind))) pop;
  foldM assign (zip pop fitnesses) h.

(** Lines 146-149: one pair of the crossover pass. *)
Definition cx_step (CXPB : Q) (acc : Heap * RNG * list (ref * ref))
    (p : ref * ref) : result (Heap * RNG * list (ref * ref)) :=
  let '(h, s, log) := acc in
  let '(child1, child2) := p in
  let '(x, s1) := random_random s in
  if Qlt_le_dec x CXPB then
    i1 ← deref h child1;
    i2 ← deref h child2;
    let '(a1, a2, s2) := mate (alleles i1) (alleles i2) s1 in
    let h := set_alleles (set_alleles h child1 a1) child2 a2 in
    let h := del_values h child1 in
    let h := del_values h child2 in
    Ok (h, s2, log ++ [(child1, child2)])
  else Ok (h, s1, log).

(** Lines 145-149. *)
Definition crossover_pass (CXPB : Q) (h : Heap) (offspring : list ref) (s : RNG)
    : result (Heap * RNG * list (ref * ref)) :=
  foldM (cx_step CXPB) (adjacent_pairs offspring) (h, s, []).

(** Lines 152-154: one individual of the mutation pass. *)
Definition mut_step (MUTPB : Q) (acc : Heap * RNG * list ref)
    (mutant : ref) : result (Heap * RNG * list ref) :=
  let '(h, s, log) := acc in
  let '(x, s1) := random_random s in
  if Qlt_le_dec x MUTPB then
    i ← deref h mutant;
    let '(a, s2) := mutate (alleles i) s1 in
    let h := set_alleles h mutant a in
    let h := del_values h mutant in
    Ok (h, s2, log ++ [mutant])
  else Ok (h, s1, log).

(** Lines 151-154. *)
Definition mutation_pass (MUTPB : Q) (h : Heap) (offspring : list ref) (s : RNG)
    : result (Heap * RNG * list ref) :=
  foldM (mut_step MUTPB) offspring (h, s, []).

(** Line 164: [[ind for ind in offspring if not ind.fitness.valid]] *)
Fixpoint invalid_inds (h : Heap) (offspring : list ref) : result (list ref) :=
  match offspring with
  | [] => Ok []
  | r :: rs =>
      ind ← deref h r;
      rest ← invalid_inds h rs;
      Ok (if valid ind then rest else r :: rest)
  end.

(** Lines 165-167.  [map] is lazy: each call of [toolbox.evaluate] happens
    when [zip] asks for the next fitness, right before the assignment.  The
    second component logs the arguments of the evaluator calls. *)
Definition eval_step (acc : Heap * list ref) (r : ref) : result (Heap * list ref) :=
  let '(h, calls) := acc in
  ind ← deref h r;
  let fit := evaluate (alleles ind) in
  Ok (set_values h r fit, calls ++ [r]).

(** Lines 164-167. *)
Definition reevaluate (h : Heap) (offspring : list ref) : result (Heap * list ref) :=
  invalid_ind ← invalid_inds h offspring;
  foldM eval_step invalid_ind (h, []).

(** Lines 131-133: selection answers references into [pop]; they are cloned
    one by one. *)
Definition select_and_clone (h : Heap) (pop : list ref) (s : RNG)
    : result (Heap * list ref * RNG) :=
  inds ← view h pop;
  let '(chosen, s1) := select inds (length pop) s in
  offspring ← forM (λ i, from_option LookupFault (pop !! i)) chosen;
  '(h1, offspring) ← clone_all h offspring;
  Ok (h1, offspring, s1).

(** Lines 131-154: selection, cloning and the two variation passes. *)
Definition variation (CXPB MUTPB : Q) (h : Heap) (pop : list ref) (s : RNG)
    : result (Heap * list ref * RNG * Touched) :=
  '(h1, offspring, s1) ← select_and_clone h pop s;
  '(h2, s2, m) ← crossover_pass CXPB h1 offspring s1;
  '(h3, s3, u) ← mutation_pass MUTPB h2 offspring s2;
  Ok (h3, offspring, s3, mkTouched m u).

(** [[ind.fitness.values[0] for ind in pop]] *)
Definition gather_fits (h : Heap) (pop : list ref) : result (list Z) :=
  forM (values0 h) pop.

(** The body of the [while] loop, lines 126-186. *)
Definition generation (CXPB MUTPB : Q) (st : State RNG) : result (State RNG) :=
  let g := S (g st) in
  '(h, offspring, s, _) ← variation CXPB MUTPB (heap st) (pop st) (rng st);
  '(h, _) ← reevaluate h offspring;
  let pop := offspring in
  fits ← gather_fits h pop;
  rep ← stats float_pow fits;
  Ok (mkState h pop s fits g (out st ++ [(g, rep)])).

(** The loop test, line 124: [max(fits) < 100 and g < 1000]. *)
Definition continue (st : State RNG) : result bool :=
  m ← py_maxZ (fits st);
  Ok ((m <? 100)%Z && (g st <? 1000)%nat).

(** The [while] loop.  [fuel] bounds the number of times the body may run;
    [None] means the bound was too small. *)
Fixpoint evolve (CXPB MUTPB : Q) (fuel : nat) (st : State RNG)
    : option (result (State RNG)) :=
  match continue st with
  | Raise e => Some (Raise e)
  | Ok false => Some (Ok st)
  | Ok true =>
      match fuel with
      | O => None
      | S fuel' =>
          match generation CXPB MUTPB st with
          | Raise e => Some (Raise e)
          | Ok st' => evolve CXPB MUTPB fuel' st'
          end
      end
  end.

(** Lines 97-121: the state in which the loop is entered. *)
Definition initial (s : RNG) : result (State RNG) :=
  let '(h, pop, s1) := population 300 [] s in
  h ← evaluate_population h pop;
  fits ← gather_fits h pop;
  Ok (mkState h pop s1 fits 0 []).

(** [main()], with [CXPB, MUTPB = 0.5, 0.2]. *)
Definition main (fuel : nat) (s : RNG) : option (result (State RNG)) :=
  match initial s with
  | Raise e => Some (Raise e)
  | Ok st => evolve (1 # 2) (1 # 5) fuel st
  end.

End Evolution.

(** ** A reference instance of the interface *)

(** A linear congruential generator stands for Python's Mersenne Twister:
    the state is a 31-bit integer. *)
Definition lcg_next (s : Z) : Z := ((1103515245 * s + 12345) mod 2 ^ 31)%Z.

(** [random.random()]: the new state over [2^31]. *)
Definition lcg_random (s : Z) : Q * Z :=
  let s' := lcg_next s in (Qmake s' (2 ^ 31), s').

(** [random.randint(a, b)], both ends included. *)
Definition lcg_randint (a b : Z) (s : Z) : Z * Z :=
  let s' := lcg_next s in ((a + (s' / 65536) mod (b - a + 1))%Z, s').

(** Python's order on tuples, used to compare fitness values. *)
Fixpoint tuple_lt (a b : list Z) : bool :=
  match a, b with
  | _, [] => false
  | [], _ :: _ => true
  | x :: a', y :: b' => (x <? y)%Z || ((x =? y)%Z && tuple_lt a' b')
  end.

Section SpecOperators.

Context {RNG : Type}.
Variable random : RNG → Q * RNG.
Variable randint : Z → Z → RNG → Z * RNG.

(** A position below [n], drawn with [randint(0, n - 1)]. *)
Definition draw_position (n : nat) (s : RNG) : nat * RNG :=
  let '(z, s1) := randint 0 (Z.of_nat n - 1) s in (Z.to_nat z, s1).

(** The better of two positions of [inds]; the earlier one wins a tie. *)
Definition better (inds : list Individual) (i j : nat) : nat :=
  match inds !! i, inds !! j with
  | Some a, Some b => if tuple_lt (wvalues a) (wvalues b) then j else i
  | _, _ => i
  end.

(** One tournament: [tournsize] aspirants are drawn one position at a
    time, and the best of them is kept. *)
Fixpoint tournament (inds : list Individual) (tournsize : nat) (best : nat)
    (s : RNG) : nat * RNG :=
  match tournsize with
  | O => (best, s)
  | S t =>
      let '(i, s1) := draw_position (length inds) s in
      tournament inds t (better inds best i) s1
  end.

(** Modelled from the spec: [tools.selTournament] (DEAP): "repeatedly
    sample a fixed-size random subset and keep its best member,
    independently K times". *)
Fixpoint spec_selTournament (tournsize : nat) (inds : list Individual) (k : nat)
    (s : RNG) : list nat * RNG :=
  match k with
  | O => ([], s)
  | S k' =>
      let '(first, s1) := draw_position (length inds) s in
      let '(winner, s2) := tournament inds (tournsize - 1) first s1 in
      let '(rest, s3) := spec_selTournament tournsize inds k' s2 in
      (winner :: rest, s3)
  end.

(** Modelled from the spec: the recombination of [tools.cxTwoPoint] (DEAP),
    "swap the allele sub-range [i,j) between the two genomes":
    [ind1[i:j], ind2[i:j] = ind2[i:j], ind1[i:j]]. *)
Definition swap_range (i j : nat) (ind1 ind2 : list Z) : list Z * list Z :=
  (take i ind1 ++ take (j - i) (drop i ind2) ++ drop j ind1,
   take i ind2 ++ take (j - i) (drop i ind1) ++ drop j ind2).

(** Modelled from the spec: the index pairs [tools.cxTwoPoint] (DEAP) draws
    from, "two indices 0 <= i < j <= N", each listed once. *)
Definition cx_points (N : nat) : list (nat * nat) :=
  i ← seq 0 N; j ← seq (S i) (N - i); [(i, j)].

(** Modelled from the spec: [tools.cxTwoPoint] (DEAP): "pick two indices
    0 <= i < j <= N uniformly, swap the allele sub-range [i,j) between the
    two genomes".  The pair is the entry of [cx_points N] at a uniformly
    drawn position; genomes without alleles are left as they are. *)
Definition spec_cxTwoPoint (ind1 ind2 : list Z) (s : RNG) : (list Z * list Z) * RNG :=
  let pts := cx_points (length ind1) in
  match pts with
  | [] => ((ind1, ind2), s)
  | _ :: _ =>
      let '(k, s1) := draw_position (length pts) s in
      match pts !! k with
      | Some (i, j) => (swap_range i j ind1 ind2, s1)
      | None => ((ind1, ind2), s1)
      end
  end.

(** [not allele], as an integer. *)
Definition flip (a : Z) : Z := if (a =? 0)%Z then 1%Z else 0%Z.

(** Modelled from the spec: [tools.mutFlipBit] (DEAP): "toggle each allele
    independently with probability p". *)
Fixpoint spec_mutFlipBit (indpb : Q) (ind : list Z) (s : RNG) : list Z * RNG :=
  match ind with
  | [] => ([], s)
  | a :: ind' =>
      let '(x, s1) := random s in
      let '(rest, s2) := spec_mutFlipBit indpb ind' s1 in
      ((if Qlt_le_dec x indpb then flip a else a) :: rest, s2)
  end.

End SpecOperators.

(** Modelled from the spec: the power function at the two exponents of the
    statistics, "std = sqrt(|mean(x^2) - mean(x)^2|)": the power 2 is the
    rounded product and the power 0.5 the rounded square root.  [main.py]
    uses no other exponent; the reference answers NaN there. *)
Definition spec_pow (x y : float) : float :=
  if SFeqb y (float_of_int 2) then float_mul x x
  else if SFeqb y half then SFsqrt prec emax x
  else S754_nan.

#[global] Instance lcg_tools : Tools Z := {|
  random_random := lcg_random;
  random_randint := lcg_randint;
  selTournament := spec_selTournament lcg_randint;
  cxTwoPoint := spec_cxTwoPoint lcg_randint;
  mutFlipBit := spec_mutFlipBit lcg_random;
  float_pow := spec_pow
|}.

(** A small population for experiments: five genomes of eight alleles, already
    evaluated. *)
Definition demo_heap : list Individual :=
  [ mkInd [0;1;0;1;0;0;1;0] [3]; mkInd [1;1;0;0;0;0;0;0] [2];
    mkInd [1;1;1;1;0;0;1;0] [5]; mkInd [0;0;0;0;0;0;0;1] [1];
    mkInd [1;0;1;0;1;0;1;0] [4] ]%Z.

Definition demo_state : State Z :=
  mkState demo_heap [0; 1; 2; 3; 4] 2024%Z [3; 2; 5; 1; 4]%Z 0 [].

(** ** Vocabulary of the statements *)

(** The three in-place writes the script performs on an individual. *)
Inductive Write : Type :=
  | SetAlleles (a : list Z)
  | SetValues (fit : list Z)
  | DelValues.

Definition write (w : Write) (h : Heap) (r : ref) : Heap :=
  match w with
  | SetAlleles a => set_alleles h r a
  | SetValues fit => set_values h r fit
  | DelValues => del_values h r
  end.

(** The object at [r] exists and its fitness is invalid, resp. valid. *)
Definition invalid_at (h : Heap) (r : ref) : Prop :=
  ∃ ind, h !! r = Some ind ∧ valid ind = false.

Definition valid_at (h : Heap) (r : ref) : Prop :=
  ∃ ind, h !! r = Some ind ∧ valid ind = true.

(** The decidable form of [invalid_at], and the number [K] of invalid
    individuals among [rs]. *)
Definition is_invalid (h : Heap) (r : ref) : bool :=
  match h !! r with
  | Some ind => negb (valid ind)
  | None => false
  end.

Definition count_invalid (h : Heap) (rs : list ref) : nat :=
  length (filter (λ r, is_invalid h r = true) rs).

(** What an individual looks like after [ind.fitness.values =
    toolbox.evaluate(ind)]. *)
Definition evaluated (ind : Individual) : Individual :=
  mkInd (alleles ind) (evalOneMax (alleles ind)).

(** [r] was an operand of [toolbox.mate] or of [toolbox.mutate]. *)
Definition touched (t : Touched) (r : ref) : Prop :=
  (∃ p, p ∈ mated t ∧ (p.1 = r ∨ p.2 = r)) ∨ r ∈ mutated t.

(** Every member of the population has a valid fitness, and [fits] lists
    the first fitness value of each member, in order. *)
Definition consistent {RNG : Type} (st : State RNG) : Prop :=
  Forall (valid_at (heap st)) (pop st) ∧
  gather_fits (heap st) (pop st) = Ok (fits st).

(** The states in which the loop test of [main] is evaluated. *)
Inductive reachable {RNG : Type} `{T : Tools RNG} (CXPB MUTPB : Q) : State RNG → Prop :=
  | reach_initial s st :
      initial s = Ok st → reachable CXPB MUTPB st
  | reach_generation st st' :
      reachable CXPB MUTPB st →
      continue st = Ok true →
      generation CXPB MUTPB st = Ok st' →
      reachable CXPB MUTPB st'.

(** The contract of a selector: [k] positions, each one inside a non-empty
    population. *)
Class SelectorContract {RNG : Type} (T : Tools RNG) : Prop := {
  select_length : ∀ tournsize inds k (s : RNG),
    length (selTournament tournsize inds k s).1 = k;
  select_range : ∀ tournsize inds k (s : RNG),
    inds ≠ [] → Forall (λ i, i < length inds) (selTournament tournsize inds k s).1
}.

(** A computation that can only fail with the exception [e0]. *)
Definition raises_only {A} (e0 : exn) (m : result A) : Prop :=
  ∀ e, m = Raise e → e = e0.












(** The effect of a write on the individual it is applied to. *)
Definition apply_write (w : Write) (ind : Individual) : Individual :=
  match w with
  | SetAlleles a => mkInd a (wvalues ind)
  | SetValues fit => mkInd (alleles ind) fit
  | DelValues => mkInd (alleles ind) []
  end.

(** The first [n] iterations of the [while] loop: the state after the
    [n]-th generation, or the state in which the loop stopped before. *)
Fixpoint generations {RNG : Type} `{T : Tools RNG} (CXPB MUTPB : Q) (n : nat)
    (st : State RNG) : result (State RNG) :=
  match n with
  | O => Ok st
  | S n' =>
      b ← continue st;
      if b : bool then st' ← generation CXPB MUTPB st; generations CXPB MUTPB n' st'
      else Ok st
  end.

(** Two states of two runs that show the same: the same individuals in the
    population (wherever the two stores keep them), the same random source,
    fitness list and counter, and the same printed statistics. *)
Definition same_run {RNG : Type} (st1 st2 : State RNG) : Prop :=
  view (heap st1) (pop st1) = view (heap st2) (pop st2) ∧
  rng st1 = rng st2 ∧ fits st1 = fits st2 ∧ g st1 = g st2 ∧ out st1 = out st2.

(** Two results that are both values, related by [R], or both the same
    exception. *)
Definition same_outcome {A B} (R : A → B → Prop) (m1 : result A) (m2 : result B) : Prop :=
  match m1, m2 with
  | Ok a, Ok b => R a b
  | Raise e1, Raise e2 => e1 = e2
  | _, _ => False
  end.

(** Addresses of two stores, paired up; the objects at paired addresses are
    equal, and no address is paired twice. *)
Definition aligned (h1 h2 : Heap) (rel : list (ref * ref)) : Prop :=
  ∀ r1 r2, (r1, r2) ∈ rel → is_Some (h1 !! r1) ∧ h1 !! r1 = h2 !! r2.

Definition one_to_one (rel : list (ref * ref)) : Prop :=
  ∀ r1 r2 r1' r2', (r1, r2) ∈ rel → (r1', r2') ∈ rel → (r1 = r1' ↔ r2 = r2').

(** Two accumulators of a pass agree: aligned stores, same random source. *)
Definition agree {RNG X Y : Type} (rel : list (ref * ref))
    (a : Heap * RNG * X) (b : Heap * RNG * Y) : Prop :=
  aligned a.1.1 b.1.1 rel ∧ a.1.2 = b.1.2.

(** The population of [demo_state] in another store: a leftover object
    first, the individuals behind it in a different order. *)
Definition demo_state' : State Z :=
  mkState
    [ mkInd [1;1;1;1;1;1;1;1] [];
      mkInd [1;0;1;0;1;0;1;0] [4]; mkInd [0;0;0;0;0;0;0;1] [1];
      mkInd [1;1;1;1;0;0;1;0] [5]; mkInd [1;1;0;0;0;0;0;0] [2];
      mkInd [0;1;0;1;0;0;1;0] [3] ]%Z
    [5; 4; 3; 2; 1] 2024%Z [3; 2; 5; 1; 4]%Z 0 [].

(** ** Vocabulary of the further properties *)

(** An allele of the One Max problem: 0 or 1. *)
Definition is_bit (a : Z) : Prop := a = 0%Z ∨ a = 1%Z.

(** The number of ones of a genome. *)
Definition count_ones (l : list Z) : nat := length (filter (λ a, a = 1%Z) l).

(** The cached fitness of an individual is the evaluation of its current
    alleles. *)
Definition coherent (ind : Individual) : Prop :=
  wvalues ind = evalOneMax (alleles ind).

(** The object at [r] exists, and its fitness is either deleted or the
    evaluation of its current alleles: no stale value is cached. *)
Definition fresh_or_coherent (h : Heap) (r : ref) : Prop :=
  ∃ ind, h !! r = Some ind ∧ (valid ind = false ∨ coherent ind).

(** The contract of [random.randint(a, b)]: an integer between [a] and [b],
    both included. *)
Class RandintContract {RNG : Type} (T : Tools RNG) : Prop := {
  randint_range : ∀ (a b : Z) (s : RNG),
    (a <= b)%Z → (a <= (random_randint a b s).1 <= b)%Z
}.

(** ** The definitions at work *)

Example stride2_five : stride2 [0; 1; 2; 3; 4] = [0; 2; 4].
Proof. reflexivity. Qed.

Example adjacent_pairs_five : adjacent_pairs [0; 1; 2; 3; 4] = [(0, 1); (2, 3)].
Proof. reflexivity. Qed.

Example evalOneMax_counts_ones : evalOneMax [1; 0; 1; 1]%Z = [3%Z].
Proof. reflexivity. Qed.

Example py_maxZ_first_maximum : py_maxZ [3; 7; 2; 7]%Z = Ok 7%Z.
Proof. reflexivity. Qed.

Example py_maxZ_empty : py_maxZ [] = Raise ValueError.
Proof. reflexivity. Qed.

Example stats_empty pow : stats pow [] = Raise ZeroDivisionError.
Proof. reflexivity. Qed.

(** [float(5)] is [5.0], and [4.0 / 3] is [1.3333333333333333], the float
    [6004799503160661 / 2^52]. *)
Example float_of_int_five : float_of_int 5 = S754_finite false 5629499534213120 (-50).
Proof. reflexivity. Qed.

Example float_div_rounds :
  float_div (float_of_int 4) (float_of_int 3) = S754_finite false 6004799503160661 (-52).
Proof. reflexivity. Qed.

(** The statistics of [[1.0, 1.0, 2.0]]: the mean [1.3333333333333333] and,
    with a power function that rounds correctly, the standard deviation
    [0.4714045207910318], the root of [0.22222222222222232]. *)
Example stats_rounded :
  stats spec_pow [1; 1; 2]%Z
  = Ok (mkReport 1 2 (S754_finite false 6004799503160661 (-52))
                     (S754_finite false 8492068896701032 (-54))).
Proof. reflexivity. Qed.

Example values0_deleted : values0 [mkInd [1; 1]%Z []] 0 = Raise IndexError.
Proof. reflexivity. Qed.

Example cx_points_three : cx_points 3 = [(0, 1); (0, 2); (0, 3); (1, 2); (1, 3); (2, 3)].
Proof. reflexivity. Qed.

Example tuple_lt_deleted_is_least : tuple_lt [] [0%Z] = true.
Proof. reflexivity. Qed.

Example demo_first_generation :
  (st ← generation (1 # 2) (1 # 5) demo_state; Ok (pop st, fits st, g st))
  = Ok ([5; 6; 7; 8; 9], [3; 5; 5; 5; 3]%Z, 1).
Proof. vm_compute. reflexivity. Qed.

Example demo_loop_stops : continue (mkState demo_heap [2] 0%Z [100%Z] 7 []) = Ok false.
Proof. reflexivity. Qed.

(** ** The error monad *)

Lemma bind_Ok {A B} (m : result A) (f : A → result B) (b : B) :
  m ≫= f = Ok b ↔ ∃ a, m = Ok a ∧ f a = Ok b.
Proof.
  destruct m as [a|e]; simpl.
  - split; [eauto | intros (a' & [= <-] & ?); done].
  - split; [discriminate | intros (a' & ? & _); discriminate].
Qed.

Lemma from_option_Ok {A} (e : exn) (o : option A) (a : A) :
  from_option e o = Ok a ↔ o = Some a.
Proof. destruct o; simpl; split; congruence. Qed.

(** Takes a hypothesis [m >>= f = Ok b] apart, as often as possible. *)
Ltac inv_bind H :=
  repeat match type of H with
  | _ ≫= _ = Ok _ =>
      let a := fresh "a" in
      let Ha := fresh "Hbind" in
      apply bind_Ok in H as (a & Ha & H)
  end.

Lemma foldM_app {A B} (f : A → B → result A) (l1 l2 : list B) (acc : A) :
  foldM f (l1 ++ l2) acc = foldM f l1 acc ≫= foldM f l2.
Proof.
  revert acc. induction l1 as [|x l1 IH]; intros acc; simpl; [done|].
  destruct (f acc x); simpl; auto.
Qed.

Lemma forM_Ok {A B} (f : A → result B) (l : list A) (k : list B) :
  forM f l = Ok k ↔ Forall2 (λ x y, f x = Ok y) l k.
Proof.
  revert k. induction l as [|x l IH]; intros k; simpl.
  - split; [intros [= <-]; constructor | by inversion 1].
  - split.
    + intros H. inv_bind H. injection H as <-. constructor; [done|]. by apply IH.
    + inversion 1 as [|? y ? k' Hx Hl]; subst. rewrite Hx. simpl.
      apply IH in Hl. by rewrite Hl.
Qed.

(** ** The object store *)

Section Store.

Implicit Types (h : list Individual) (r x : nat).

Lemma deref_Ok h r ind : deref h r = Ok ind ↔ h !! r = Some ind.
Proof. apply from_option_Ok. Qed.

Lemma length_write w h r : length (write w h r) = length h.
Proof. destruct w; apply length_alter. Qed.

Lemma lookup_write_ne w h r x : r ≠ x → write w h r !! x = h !! x.
Proof. intros. destruct w; by apply list_lookup_alter_ne. Qed.

Lemma length_set_alleles h r a : length (set_alleles h r a) = length h.
Proof. apply (length_write (SetAlleles a)). Qed.

Lemma length_set_values h r fit : length (set_values h r fit) = length h.
Proof. apply (length_write (SetValues fit)). Qed.

Lemma length_del_values h r : length (del_values h r) = length h.
Proof. apply (length_write DelValues). Qed.

Lemma lookup_set_alleles_ne h r a x : r ≠ x → set_alleles h r a !! x = h !! x.
Proof. apply (lookup_write_ne (SetAlleles a)). Qed.

Lemma lookup_set_values_ne h r fit x : r ≠ x → set_values h r fit !! x = h !! x.
Proof. apply (lookup_write_ne (SetValues fit)). Qed.

Lemma lookup_del_values_ne h r x : r ≠ x → del_values h r !! x = h !! x.
Proof. apply (lookup_write_ne DelValues). Qed.

Lemma lookup_set_alleles_eq h r a :
  set_alleles h r a !! r = (λ ind, mkInd a (wvalues ind)) <$> h !! r.
Proof. apply list_lookup_alter_eq. Qed.

Lemma lookup_set_values_eq h r fit :
  set_values h r fit !! r = (λ ind, mkInd (alleles ind) fit) <$> h !! r.
Proof. apply list_lookup_alter_eq. Qed.

Lemma lookup_del_values_eq h r :
  del_values h r !! r = (λ ind, mkInd (alleles ind) []) <$> h !! r.
Proof. apply list_lookup_alter_eq. Qed.

(** A deletion never makes a fitness valid. *)
Lemma invalid_at_del_values h r x : invalid_at h x → invalid_at (del_values h r) x.
Proof.
  intros (ind & Hx & Hv). destruct (decide (r = x)) as [->|Hne].
  - eexists. rewrite lookup_del_values_eq, Hx. done.
  - exists ind. by rewrite lookup_del_values_ne.
Qed.

Lemma invalid_at_del_values_eq h r : is_Some (h !! r) → invalid_at (del_values h r) r.
Proof. intros [ind Hr]. eexists. rewrite lookup_del_values_eq, Hr. done. Qed.

(** Nor does a change of alleles. *)
Lemma invalid_at_set_alleles h r a x : invalid_at h x → invalid_at (set_alleles h r a) x.
Proof.
  intros (ind & Hx & Hv). destruct (decide (r = x)) as [->|Hne].
  - eexists. rewrite lookup_set_alleles_eq, Hx. done.
  - exists ind. by rewrite lookup_set_alleles_ne.
Qed.

Lemma is_Some_set_alleles h r a x : is_Some (set_alleles h r a !! x) ↔ is_Some (h !! x).
Proof. by rewrite !lookup_lt_is_Some, length_set_alleles. Qed.

Lemma is_Some_del_values h r x : is_Some (del_values h r !! x) ↔ is_Some (h !! x).
Proof. by rewrite !lookup_lt_is_Some, length_del_values. Qed.

(** Cloning: the clones are the next free addresses, in order, and the
    store grows by copies of the originals. *)
Lemma clone_all_Ok h rs inds :
  Forall2 (λ r ind, h !! r = Some ind) rs inds →
  clone_all h rs = Ok (h ++ inds, seq (length h) (length rs)).
Proof.
  revert h inds. induction rs as [|r rs IH]; intros h inds HF.
  - inversion HF; subst. simpl. by rewrite app_nil_r.
  - inversion HF as [|? ind ? inds' Hr HF']; subst. simpl.
    unfold clone, deref. rewrite Hr. simpl.
    rewrite (IH (h ++ [ind]) inds').
    + simpl. rewrite length_app, <- app_assoc. simpl.
      by rewrite Nat.add_1_r.
    + eapply Forall2_impl; [exact HF'|]. intros r' ind' Hr'. simpl in Hr'.
      by apply lookup_app_l_Some.
Qed.

Lemma live_elements h rs :
  Forall (λ r, is_Some (h !! r)) rs →
  ∃ inds, Forall2 (λ r ind, h !! r = Some ind) rs inds.
Proof.
  induction 1 as [|r rs [ind Hr] _ [inds IH]].
  - exists []. constructor.
  - exists (ind :: inds). by constructor.
Qed.

End Store.

(** ** Cloning *)

Lemma clone_all_shape (h : list Individual) (rs : list nat) :
  Forall (λ r, is_Some (h !! r)) rs →
  ∃ inds, Forall2 (λ r ind, h !! r = Some ind) rs inds ∧
          clone_all h rs = Ok (h ++ inds, seq (length h) (length rs)).
Proof.
  intros Hlive. destruct (live_elements h rs Hlive) as [inds HF].
  exists inds. split; [done|]. by apply clone_all_Ok.
Qed.

(** C5.  Cloning individuals of the store gives new objects with the
    alleles and the fitness of the originals.  The clones are pairwise
    distinct, also when the same individual is cloned several times, and
    distinct from every object that existed before.  A later write (new
    alleles, new fitness values, deleted fitness values) on a clone leaves
    every original and every other clone as it was, and a write on an
    original leaves every clone as it was. *)
Theorem clone_independent (h : list Individual) (rs : list nat) :
  Forall (λ r, is_Some (h !! r)) rs →
  ∃ h' cs,
    clone_all h rs = Ok (h', cs) ∧
    Forall2 (λ r c, ∃ h0 h1, clone h0 r = Ok (h1, c) ∧ h0 !! r = h !! r) rs cs ∧
    NoDup cs ∧
    (∀ i r c, rs !! i = Some r → cs !! i = Some c →
       h !! c = None ∧ h' !! c = h !! r) ∧
    (∀ x, is_Some (h !! x) → h' !! x = h !! x) ∧
    (∀ w c x, c ∈ cs → is_Some (h !! x) → write w h' c !! x = h !! x) ∧
    (∀ w i j c c', i ≠ j → cs !! i = Some c → cs !! j = Some c' →
       write w h' c !! c' = h' !! c') ∧
    (∀ w c x, c ∈ cs → is_Some (h !! x) → write w h' x !! c = h' !! c).
Proof.
  intros Hlive. destruct (clone_all_shape h rs Hlive) as (inds & HF & Hclone).
  exists (h ++ inds), (seq (length h) (length rs)).
  assert (Hfresh : ∀ c x, c ∈ seq (length h) (length rs) → is_Some (h !! x) → c ≠ x).
  { intros c x Hc Hx ->. apply elem_of_seq in Hc. apply lookup_lt_is_Some in Hx. lia. }
  split_and!.
  - done.
  - apply Forall2_same_length_lookup_2.
    { by rewrite length_seq. }
    intros i r c Hr Hc. apply lookup_seq in Hc as [-> Hi].
    destruct (Forall2_lookup_l _ _ _ _ _ HF Hr) as (ind & Hind & Hhr).
    exists (h ++ take i inds), ((h ++ take i inds) ++ [ind]). split.
    + unfold clone, deref. rewrite (lookup_app_l_Some _ _ _ _ Hhr). simpl.
      unfold alloc. do 2 f_equal. rewrite length_app, length_take.
      apply lookup_lt_Some in Hind. lia.
    + rewrite Hhr. by apply lookup_app_l_Some.
  - apply NoDup_seq.
  - intros i r c Hr Hc. apply lookup_seq in Hc as [-> Hi].
    destruct (Forall2_lookup_l _ _ _ _ _ HF Hr) as (ind & Hind & Hhr).
    split.
    + apply lookup_ge_None. lia.
    + rewrite lookup_app_r by lia. rewrite Hhr, <- Hind. f_equal. lia.
  - intros x [ind Hx]. rewrite Hx. by apply lookup_app_l_Some.
  - intros w c x Hc Hx. rewrite lookup_write_ne by eauto.
    destruct Hx as [ind Hx]. rewrite Hx. by apply lookup_app_l_Some.
  - intros w i j c c' Hij Hc Hc'. apply lookup_write_ne.
    apply lookup_seq in Hc as [-> _]. apply lookup_seq in Hc' as [-> _]. lia.
  - intros w c x Hc Hx. apply lookup_write_ne. intros ->. by eapply Hfresh.
Qed.

Lemma clone_independent_witness :
  ∃ h' cs,
    clone_all demo_heap [2; 2; 0] = Ok (h', cs) ∧
    cs = [5; 6; 7] ∧
    write (SetAlleles []) h' 5 !! 2 = demo_heap !! 2 ∧
    write DelValues h' 5 !! 6 = demo_heap !! 2 ∧
    write (SetValues [0%Z]) h' 2 !! 5 = demo_heap !! 2.
Proof.
  destruct (clone_independent demo_heap [2; 2; 0]) as (h' & cs & Hc & _ & _ & _ & _ & Ho & Hs & Hr).
  { repeat constructor; (eexists; reflexivity). }
  exists h', cs. split; [exact Hc|].
  vm_compute in Hc. injection Hc as <- <-.
  split; [reflexivity|]. split_and!; reflexivity.
Defined.

(** ** The variation passes *)

Lemma foldM_total {A B} (P : A → Prop) (f : A → B → result A) (l : list B) (acc : A) :
  P acc →
  (∀ a x, x ∈ l → P a → ∃ a', f a x = Ok a' ∧ P a') →
  ∃ acc', foldM f l acc = Ok acc' ∧ P acc'.
Proof.
  revert acc. induction l as [|x l IH]; intros acc Hacc Hstep; simpl.
  - by exists acc.
  - destruct (Hstep acc x) as (a' & -> & Ha'); [apply list_elem_of_here | done |].
    simpl. apply IH; [done|]. intros a y Hy. apply Hstep. by apply list_elem_of_further.
Qed.

Lemma foldM_invariant {A B} (P : A → Prop) (f : A → B → result A) (l : list B)
    (acc acc' : A) :
  P acc →
  (∀ a x a', x ∈ l → P a → f a x = Ok a' → P a') →
  foldM f l acc = Ok acc' → P acc'.
Proof.
  revert acc. induction l as [|x l IH]; intros acc Hacc Hstep Hfold; simpl in Hfold.
  - by injection Hfold as <-.
  - inv_bind Hfold. eapply (IH a); [|by eauto using list_elem_of_further | done].
    eapply Hstep; [apply list_elem_of_here | done | done].
Qed.

Section Passes.

Context {RNG : Type} `{T : Tools RNG}.
Implicit Types (h : list Individual) (s : RNG) (r x : nat).

(** What one step of the crossover pass does: either the draw is below
    [CXPB], the two children are mated and both lose their fitness values,
    or nothing but the random source changes. *)
Lemma cx_step_inv CXPB h s log c1 c2 h' s' log' :
  cx_step CXPB (h, s, log) (c1, c2) = Ok (h', s', log') →
  ((random_random s).1 < CXPB)%Q ∧
    (∃ i1 i2 a1 a2,
       h !! c1 = Some i1 ∧ h !! c2 = Some i2 ∧
       mate (alleles i1) (alleles i2) (random_random s).2 = (a1, a2, s') ∧
       h' = del_values (del_values (set_alleles (set_alleles h c1 a1) c2 a2) c1) c2 ∧
       log' = log ++ [(c1, c2)])
  ∨ (CXPB <= (random_random s).1)%Q ∧ h' = h ∧ s' = (random_random s).2 ∧ log' = log.
Proof.
  unfold cx_step. destruct (random_random s) as [x s1]. simpl.
  destruct (Qlt_le_dec x CXPB) as [Hlt|Hle]; intros H.
  - left. split; [done|]. inv_bind H.
    apply deref_Ok in Hbind, Hbind0.
    destruct (mate (alleles a) (alleles a0) s1) as [[a1 a2] s2] eqn:Hmate.
    injection H as <- <- <-. by exists a, a0, a1, a2.
  - right. by injection H as <- <- <-.
Qed.

Lemma mut_step_inv MUTPB h s log r h' s' log' :
  mut_step MUTPB (h, s, log) r = Ok (h', s', log') →
  ((random_random s).1 < MUTPB)%Q ∧
    (∃ i a,
       h !! r = Some i ∧ mutate (alleles i) (random_random s).2 = (a, s') ∧
       h' = del_values (set_alleles h r a) r ∧ log' = log ++ [r])
  ∨ (MUTPB <= (random_random s).1)%Q ∧ h' = h ∧ s' = (random_random s).2 ∧ log' = log.
Proof.
  unfold mut_step. destruct (random_random s) as [x s1]. simpl.
  destruct (Qlt_le_dec x MUTPB) as [Hlt|Hle]; intros H.
  - left. split; [done|]. inv_bind H. apply deref_Ok in Hbind.
    destruct (mutate (alleles a) s1) as [a' s2] eqn:Hmut.
    injection H as <- <- <-. by exists a, a'.
  - right. by injection H as <- <- <-.
Qed.

(** Neither step changes the size of the store, touches an object other
    than its operands, or makes an invalid fitness valid. *)
Lemma cx_step_frame CXPB h s log c1 c2 h' s' log' :
  cx_step CXPB (h, s, log) (c1, c2) = Ok (h', s', log') →
  length h' = length h ∧
  (∀ x, x ≠ c1 → x ≠ c2 → h' !! x = h !! x) ∧
  (∀ x, invalid_at h x → invalid_at h' x).
Proof.
  intros H. apply cx_step_inv in H
    as [(_ & i1 & i2 & a1 & a2 & H1 & H2 & _ & -> & _)|(_ & -> & _ & _)]; [|done].
  split_and!.
  - by rewrite !length_del_values, !length_set_alleles.
  - intros x Hx1 Hx2.
    by rewrite !lookup_del_values_ne, !lookup_set_alleles_ne.
  - intros x Hx. by do 2 apply invalid_at_del_values; do 2 apply invalid_at_set_alleles.
Qed.

Lemma mut_step_frame MUTPB h s log r h' s' log' :
  mut_step MUTPB (h, s, log) r = Ok (h', s', log') →
  length h' = length h ∧
  (∀ x, x ≠ r → h' !! x = h !! x) ∧
  (∀ x, invalid_at h x → invalid_at h' x).
Proof.
  intros H. apply mut_step_inv in H
    as [(_ & i & a & H1 & _ & -> & _)|(_ & -> & _ & _)]; [|done].
  split_and!.
  - by rewrite !length_del_values, !length_set_alleles.
  - intros x Hx. by rewrite !lookup_del_values_ne, !lookup_set_alleles_ne.
  - intros x Hx. by apply invalid_at_del_values, invalid_at_set_alleles.
Qed.

(** An applied step leaves its operands without fitness values. *)
Lemma cx_step_applied CXPB h s log c1 c2 h' s' log' :
  cx_step CXPB (h, s, log) (c1, c2) = Ok (h', s', log') →
  ((random_random s).1 < CXPB)%Q →
  invalid_at h' c1 ∧ invalid_at h' c2 ∧ log' = log ++ [(c1, c2)].
Proof.
  intros H Hlt. apply cx_step_inv in H
    as [(_ & i1 & i2 & a1 & a2 & H1 & H2 & _ & -> & ->)|(Hle & _)].
  - split_and!; [| |done].
    + apply invalid_at_del_values, invalid_at_del_values_eq.
      rewrite !is_Some_set_alleles. eauto.
    + apply invalid_at_del_values_eq.
      rewrite is_Some_del_values, !is_Some_set_alleles. eauto.
  - exfalso. by eapply Qlt_not_le.
Qed.

Lemma mut_step_applied MUTPB h s log r h' s' log' :
  mut_step MUTPB (h, s, log) r = Ok (h', s', log') →
  ((random_random s).1 < MUTPB)%Q →
  invalid_at h' r ∧ log' = log ++ [r].
Proof.
  intros H Hlt. apply mut_step_inv in H
    as [(_ & i & a & H1 & _ & -> & ->)|(Hle & _)].
  - split; [|done]. apply invalid_at_del_values_eq.
    rewrite is_Some_set_alleles. eauto.
  - exfalso. by eapply Qlt_not_le.
Qed.

(** The log of a step grows by the operands exactly when it is applied. *)
Lemma cx_step_log CXPB h s log c1 c2 h' s' log' :
  cx_step CXPB (h, s, log) (c1, c2) = Ok (h', s', log') →
  log' = log ∧ h' = h ∨
  log' = log ++ [(c1, c2)] ∧ invalid_at h' c1 ∧ invalid_at h' c2.
Proof.
  intros H. destruct (Qlt_le_dec (random_random s).1 CXPB) as [Hlt|Hle].
  - right. destruct (cx_step_applied _ _ _ _ _ _ _ _ _ H Hlt) as (?&?&?). done.
  - left. apply cx_step_inv in H as [(Hlt & _)|(_ & -> & _ & ->)]; [|done].
    exfalso. by eapply Qlt_not_le.
Qed.

Lemma mut_step_log MUTPB h s log r h' s' log' :
  mut_step MUTPB (h, s, log) r = Ok (h', s', log') →
  log' = log ∧ h' = h ∨ log' = log ++ [r] ∧ invalid_at h' r.
Proof.
  intros H. destruct (Qlt_le_dec (random_random s).1 MUTPB) as [Hlt|Hle].
  - right. destruct (mut_step_applied _ _ _ _ _ _ _ _ H Hlt) as (?&?). done.
  - left. apply mut_step_inv in H as [(Hlt & _)|(_ & -> & _ & ->)]; [|done].
    exfalso. by eapply Qlt_not_le.
Qed.

End Passes.

(** ** Pairing *)

Section Pairing.

Context {A : Type}.
Implicit Types (l : list A).

Lemma adjacent_pairs_cons2 (x y : A) l :
  adjacent_pairs (x :: y :: l) = (x, y) :: adjacent_pairs l.
Proof. unfold adjacent_pairs. simpl. by destruct l. Qed.

Lemma adjacent_pairs_lookup l k a b :
  adjacent_pairs l !! k = Some (a, b) ↔
  l !! (2 * k) = Some a ∧ l !! (2 * k + 1) = Some b.
Proof.
  revert l. induction k as [|k IH]; intros [|x [|y l]].
  - simpl. split; [discriminate | intros [? _]; discriminate].
  - simpl. split; [discriminate | intros [_ ?]; discriminate].
  - rewrite adjacent_pairs_cons2. simpl.
    split; [intros [= -> ->]; done | intros [[= ->] [= ->]]; done].
  - simpl. split; [discriminate | intros [? _]; discriminate].
  - replace (2 * S k) with (S (S (2 * k))) by lia. simpl.
    split; [discriminate | intros [? _]; discriminate].
  - rewrite adjacent_pairs_cons2.
    replace (2 * S k) with (S (S (2 * k))) by lia. simpl. apply IH.
Qed.

Lemma adjacent_pairs_length l : length (adjacent_pairs l) = length l / 2.
Proof.
  induction l as [l IH] using (induction_ltof1 _ (@length A)).
  destruct l as [|x [|y l]]; [done..|].
  rewrite adjacent_pairs_cons2. cbn [length].
  rewrite IH by (unfold ltof; cbn [length]; lia).
  replace (S (S (length l))) with (1 * 2 + length l) by lia.
  rewrite Nat.div_add_l by lia. lia.
Qed.




End Pairing.

Section PassFacts.

Context {RNG : Type} `{T : Tools RNG}.
Implicit Types (h : list Individual) (s : RNG) (r x : nat).

Lemma crossover_fold CXPB ps h s log h' s' log' :
  foldM (cx_step CXPB) ps (h, s, log) = Ok (h', s', log') →
  length h' = length h ∧
  (∀ x, (∀ p, p ∈ ps → p.1 ≠ x ∧ p.2 ≠ x) → h' !! x = h !! x) ∧
  (∀ x, invalid_at h x → invalid_at h' x) ∧
  ∃ l, log' = log ++ l ∧ l ⊆ ps ∧
       Forall (λ p, invalid_at h' p.1 ∧ invalid_at h' p.2) l.
Proof.
  apply (foldM_invariant (λ acc,
    length acc.1.1 = length h ∧
    (∀ x, (∀ p, p ∈ ps → p.1 ≠ x ∧ p.2 ≠ x) → acc.1.1 !! x = h !! x) ∧
    (∀ x, invalid_at h x → invalid_at acc.1.1 x) ∧
    ∃ l, acc.2 = log ++ l ∧ l ⊆ ps ∧
         Forall (λ p, invalid_at acc.1.1 p.1 ∧ invalid_at acc.1.1 p.2) l)).
  - simpl. split_and!; [done..|]. exists []. rewrite app_nil_r.
    split_and!; [done | apply list_subseteq_nil | constructor].
  - intros [[h1 s1] log1] [c1 c2] [[h2 s2] log2] Hin HP Hstep. simpl in *.
    destruct HP as (Hlen & Hframe & Hinv & l & -> & Hsub & Hl).
    destruct (cx_step_frame _ _ _ _ _ _ _ _ _ Hstep) as (Hlen' & Hframe' & Hinv').
    split_and!.
    + congruence.
    + intros x Hx. destruct (Hx _ Hin) as [Hx1 Hx2]. simpl in *.
      rewrite Hframe' by done. by apply Hframe.
    + eauto.
    + assert (Hl' : Forall (λ p, invalid_at h2 p.1 ∧ invalid_at h2 p.2) l).
      { eapply Forall_impl; [exact Hl|]. intros p [? ?]. eauto. }
      destruct (cx_step_log _ _ _ _ _ _ _ _ _ Hstep)
        as [(-> & ->)|(-> & Hc1 & Hc2)].
      * by exists l.
      * exists (l ++ [(c1, c2)]). rewrite app_assoc. split_and!; [done| |].
        -- intros p [? | ->%list_elem_of_singleton]%elem_of_app; auto.
        -- apply Forall_app. split; [done|]. by repeat constructor.
Qed.

(** The crossover pass changes only the individuals it logs. *)
Lemma crossover_fold_untouched CXPB ps h s log h' s' log' :
  foldM (cx_step CXPB) ps (h, s, log) = Ok (h', s', log') →
  ∃ l, log' = log ++ l ∧
       ∀ x, (∀ p, p ∈ l → p.1 ≠ x ∧ p.2 ≠ x) → h' !! x = h !! x.
Proof.
  apply (foldM_invariant (λ acc,
    ∃ l, acc.2 = log ++ l ∧
         ∀ x, (∀ p, p ∈ l → p.1 ≠ x ∧ p.2 ≠ x) → acc.1.1 !! x = h !! x)).
  - exists []. simpl. by rewrite app_nil_r.
  - intros [[h1 s1] log1] [c1 c2] [[h2 s2] log2] _ HP Hstep. simpl in *.
    destruct HP as (l & -> & Hsame).
    destruct (cx_step_frame _ _ _ _ _ _ _ _ _ Hstep) as (_ & Hframe & _).
    destruct (cx_step_log _ _ _ _ _ _ _ _ _ Hstep) as [(-> & ->)|(-> & _ & _)].
    + by exists l.
    + exists (l ++ [(c1, c2)]). rewrite app_assoc. split; [done|].
      intros x Hx. destruct (Hx (c1, c2)) as [Hx1 Hx2].
      { apply elem_of_app. right. apply list_elem_of_here. }
      simpl in *. rewrite Hframe by done. apply Hsame.
      intros p Hp. apply Hx, elem_of_app. by left.
Qed.


Lemma mutation_fold MUTPB rs h s log h' s' log' :
  foldM (mut_step MUTPB) rs (h, s, log) = Ok (h', s', log') →
  length h' = length h ∧
  (∀ x, x ∉ rs → h' !! x = h !! x) ∧
  (∀ x, invalid_at h x → invalid_at h' x) ∧
  ∃ l, log' = log ++ l ∧ l ⊆ rs ∧ Forall (invalid_at h') l.
Proof.
  apply (foldM_invariant (λ acc,
    length acc.1.1 = length h ∧
    (∀ x, x ∉ rs → acc.1.1 !! x = h !! x) ∧
    (∀ x, invalid_at h x → invalid_at acc.1.1 x) ∧
    ∃ l, acc.2 = log ++ l ∧ l ⊆ rs ∧ Forall (invalid_at acc.1.1) l)).
  - simpl. split_and!; [done..|]. exists []. rewrite app_nil_r.
    split_and!; [done | apply list_subseteq_nil | constructor].
  - intros [[h1 s1] log1] r [[h2 s2] log2] Hin HP Hstep. simpl in *.
    destruct HP as (Hlen & Hframe & Hinv & l & -> & Hsub & Hl).
    destruct (mut_step_frame _ _ _ _ _ _ _ _ Hstep) as (Hlen' & Hframe' & Hinv').
    split_and!.
    + congruence.
    + intros x Hx. rewrite Hframe' by (intros ->; done). by apply Hframe.
    + eauto.
    + assert (Hl' : Forall (invalid_at h2) l).
      { eapply Forall_impl; [exact Hl|]. eauto. }
      destruct (mut_step_log _ _ _ _ _ _ _ _ Hstep) as [(-> & ->)|(-> & Hr)].
      * by exists l.
      * exists (l ++ [r]). rewrite app_assoc. split_and!; [done| |].
        -- intros p [? | ->%list_elem_of_singleton]%elem_of_app; auto.
        -- apply Forall_app. split; [done|]. by repeat constructor.
Qed.

(** Selection and cloning: the offspring are the next free addresses of
    the store, which grows by copies of the chosen individuals. *)
Lemma select_and_clone_inv h pop s h1 offspring s1 :
  select_and_clone h pop s = Ok (h1, offspring, s1) →
  ∃ inds chosen sel,
    view h pop = Ok inds ∧
    select inds (length pop) s = (chosen, s1) ∧
    Forall2 (λ i ind, inds !! i = Some ind) chosen sel ∧
    h1 = h ++ sel ∧
    offspring = seq (length h) (length chosen).
Proof.
  unfold select_and_clone. intros H. apply bind_Ok in H as (inds & Hview & H).
  destruct (select inds (length pop) s) as [chosen s'] eqn:Hsel.
  apply bind_Ok in H as (picked & Hpick & H).
  apply bind_Ok in H as ([h2 cs] & Hclone & H). injection H as <- <- <-.
  apply forM_Ok in Hview, Hpick.
  assert (Hsel' : ∃ sel, Forall2 (λ i ind, inds !! i = Some ind) chosen sel ∧
                         Forall2 (λ r ind, h !! r = Some ind) picked sel).
  { clear Hclone Hsel. induction Hpick as [|i r chosen picked Hi _ (sel & IH1 & IH2)].
    - exists []. split; constructor.
    - apply from_option_Ok in Hi.
      destruct (Forall2_lookup_l _ _ _ _ _ Hview Hi) as (ind & Hind & Hr).
      apply deref_Ok in Hr.
      exists (ind :: sel). split; by constructor. }
  destruct Hsel' as (sel & Hsel1 & Hsel2).
  rewrite (clone_all_Ok _ _ _ Hsel2) in Hclone. injection Hclone as <- <-.
  exists inds, chosen, sel. split_and!; [by apply forM_Ok|done..|].
  by rewrite (Forall2_length _ _ _ Hpick).
Qed.

Lemma select_and_clone_offspring h pop s h1 offspring s1 :
  select_and_clone h pop s = Ok (h1, offspring, s1) →
  NoDup offspring ∧ Forall (λ r, is_Some (h1 !! r)) offspring ∧
  Forall (λ r, h !! r = None) offspring ∧ length h ≤ length h1.
Proof.
  intros (inds & chosen & sel & _ & _ & HF & -> & ->)%select_and_clone_inv.
  pose proof (Forall2_length _ _ _ HF) as Hlen.
  split_and!.
  - apply NoDup_seq.
  - apply Forall_forall. intros r Hr%elem_of_seq.
    apply lookup_lt_is_Some. rewrite length_app. lia.
  - apply Forall_forall. intros r Hr%elem_of_seq. apply lookup_ge_None. lia.
  - rewrite length_app. lia.
Qed.

End PassFacts.

(** ** Re-evaluation *)

Section Reevaluation.

Context {RNG : Type} `{T : Tools RNG}.
Implicit Types (h : list Individual) (s : RNG) (r x : nat).

Lemma is_invalid_true h r : is_invalid h r = true ↔ invalid_at h r.
Proof.
  unfold is_invalid, invalid_at. destruct (h !! r) as [ind|].
  - rewrite negb_true_iff. split; [eauto | by intros (? & [= <-] & ?)].
  - split; [done | by intros (? & ? & _)].
Qed.

Lemma valid_at_not_invalid h r : valid_at h r → is_invalid h r = false.
Proof. intros (ind & Hr & Hv). unfold is_invalid. by rewrite Hr, Hv. Qed.

Lemma valid_evaluated ind : valid (evaluated ind) = true.
Proof. done. Qed.

Lemma invalid_inds_Ok h rs :
  Forall (λ r, is_Some (h !! r)) rs →
  invalid_inds h rs = Ok (filter (λ r, is_invalid h r = true) rs).
Proof.
  induction 1 as [|r rs [ind Hr] _ IH]; [done|].
  simpl. unfold deref. rewrite Hr. simpl. rewrite IH. simpl.
  rewrite filter_cons.
  assert (Hinv : is_invalid h r = negb (valid ind)).
  { unfold is_invalid. by rewrite Hr. }
  destruct (valid ind); simpl in Hinv.
  - rewrite decide_False; [done|]. by rewrite Hinv.
  - by rewrite decide_True.
Qed.

Lemma eval_fold l h calls :
  Forall (λ r, is_Some (h !! r)) l →
  ∃ h', foldM eval_step l (h, calls) = Ok (h', calls ++ l) ∧
        length h' = length h ∧
        ∀ x, h' !! x = if decide (x ∈ l) then evaluated <$> h !! x else h !! x.
Proof.
  revert h calls. induction l as [|r l IH]; intros h calls Hlive.
  - exists h. rewrite app_nil_r. split_and!; [done..|].
    intros x. case_decide as Hx; [by apply elem_of_nil in Hx | done].
  - apply Forall_cons in Hlive as [[ind Hr] Hlive]. simpl.
    unfold deref. rewrite Hr. simpl.
    destruct (IH (set_values h r (evaluate (alleles ind))) (calls ++ [r]))
      as (h' & Hfold & Hlen & Hlook).
    { eapply Forall_impl; [exact Hlive|]. intros x.
      by rewrite !lookup_lt_is_Some, length_set_values. }
    exists h'. rewrite Hfold, <- app_assoc. split_and!; [done| |].
    + by rewrite Hlen, length_set_values.
    + intros x. rewrite Hlook. destruct (decide (x = r)) as [->|Hne].
      * rewrite lookup_set_values_eq, Hr. simpl.
        rewrite (decide_True (P := r ∈ r :: l)) by apply list_elem_of_here.
        by case_decide.
      * rewrite lookup_set_values_ne by done.
        destruct (decide (x ∈ l)) as [Hin|Hnin].
        -- by rewrite decide_True by (by apply list_elem_of_further).
        -- rewrite decide_False; [done|]. by intros [?|?]%elem_of_cons.
Qed.

(** Re-evaluation calls the evaluator on the invalid individuals, in
    order, and gives each of them its fitness; nothing else changes. *)
Lemma reevaluate_spec h rs :
  Forall (λ r, is_Some (h !! r)) rs →
  ∃ h', reevaluate h rs = Ok (h', filter (λ r, is_invalid h r = true) rs) ∧
        length h' = length h ∧
        ∀ x, h' !! x = if decide (x ∈ rs ∧ is_invalid h x = true)
                       then evaluated <$> h !! x else h !! x.
Proof.
  intros Hlive. unfold reevaluate. rewrite (invalid_inds_Ok _ _ Hlive). simpl.
  destruct (eval_fold (filter (λ r, is_invalid h r = true) rs) h [])
    as (h' & Hfold & Hlen & Hlook).
  { apply Forall_forall. intros r [_ Hr]%list_elem_of_filter.
    rewrite Forall_forall in Hlive. auto. }
  exists h'. split_and!; [done..|].
  intros x. rewrite Hlook.
  destruct (decide (x ∈ filter (λ r, is_invalid h r = true) rs)) as [Hin|Hnin].
  - apply list_elem_of_filter in Hin. by rewrite decide_True by tauto.
  - rewrite decide_False; [done|]. intros [? ?]. apply Hnin.
    by apply list_elem_of_filter.
Qed.

Lemma reevaluate_valid h rs h' calls :
  Forall (λ r, is_Some (h !! r)) rs →
  reevaluate h rs = Ok (h', calls) →
  Forall (valid_at h') rs.
Proof.
  intros Hlive Hre. destruct (reevaluate_spec h rs Hlive) as (h2 & Hre' & _ & Hlook).
  rewrite Hre in Hre'. injection Hre' as <- _.
  apply Forall_forall. intros r Hr.
  rewrite Forall_forall in Hlive. destruct (Hlive r Hr) as [ind Hind].
  unfold valid_at. rewrite Hlook, Hind.
  destruct (is_invalid h r) eqn:Hinv.
  - rewrite decide_True by done. eexists. split; [done|]. apply valid_evaluated.
  - rewrite decide_False by (intros [_ ?]; done).
    exists ind. split; [done|]. unfold is_invalid in Hinv. rewrite Hind in Hinv.
    by apply negb_false_iff.
Qed.

Lemma variation_inv CXPB MUTPB h pop s h3 offspring s3 t :
  variation CXPB MUTPB h pop s = Ok (h3, offspring, s3, t) →
  ∃ h1 s1 h2 s2,
    select_and_clone h pop s = Ok (h1, offspring, s1) ∧
    crossover_pass CXPB h1 offspring s1 = Ok (h2, s2, mated t) ∧
    mutation_pass MUTPB h2 offspring s2 = Ok (h3, s3, mutated t).
Proof.
  unfold variation. intros H.
  apply bind_Ok in H as ([[h1 off] s1] & H1 & H).
  apply bind_Ok in H as ([[h2 s2] m] & H2 & H).
  apply bind_Ok in H as ([[h3' s3'] u] & H3 & H).
  injection H as <- <- <- <-. by exists h1, s1, h2, s2.
Qed.

(** At the re-evaluation the offspring are distinct objects of the store. *)
Lemma variation_offspring CXPB MUTPB h pop s h3 offspring s3 t :
  variation CXPB MUTPB h pop s = Ok (h3, offspring, s3, t) →
  NoDup offspring ∧ Forall (λ r, is_Some (h3 !! r)) offspring.
Proof.
  intros (h1 & s1 & h2 & s2 & Hsel & Hcx & Hmut)%variation_inv.
  destruct (select_and_clone_offspring _ _ _ _ _ _ Hsel) as (Hnd & Hlive & _).
  destruct (crossover_fold _ _ _ _ _ _ _ _ Hcx) as (Hlen2 & _).
  destruct (mutation_fold _ _ _ _ _ _ _ _ Hmut) as (Hlen3 & _).
  split; [done|]. eapply Forall_impl; [exact Hlive|].
  intros r. rewrite !lookup_lt_is_Some. lia.
Qed.

Lemma adjacent_pairs_elem (l : list nat) p :
  p ∈ adjacent_pairs l → p.1 ∈ l ∧ p.2 ∈ l.
Proof.
  destruct p as [a b]. intros [k Hk]%list_elem_of_lookup.
  apply adjacent_pairs_lookup in Hk as [Ha Hb].
  split; by eapply list_elem_of_lookup_2.
Qed.

(** Whatever the variation phase touched is an offspring and is invalid
    when the re-evaluation starts. *)
Lemma variation_touched CXPB MUTPB h pop s h3 offspring s3 t r :
  variation CXPB MUTPB h pop s = Ok (h3, offspring, s3, t) →
  touched t r → r ∈ offspring ∧ invalid_at h3 r.
Proof.
  intros (h1 & s1 & h2 & s2 & Hsel & Hcx & Hmut)%variation_inv Ht.
  destruct (crossover_fold _ _ _ _ _ _ _ _ Hcx) as (_ & _ & _ & l & Hl & Hsub & Hinv2).
  destruct (mutation_fold _ _ _ _ _ _ _ _ Hmut) as (_ & _ & Hkeep & l' & Hl' & Hsub' & Hinv3).
  simpl in Hl, Hl'. subst l l'.
  rewrite Forall_forall in Hinv2. rewrite Forall_forall in Hinv3.
  destruct Ht as [(p & Hp & Hpr)|Hr].
  - destruct (adjacent_pairs_elem offspring p (Hsub _ Hp)) as [H1 H2].
    destruct (Hinv2 p Hp) as [Hi1 Hi2].
    destruct Hpr as [<-|<-]; split; auto.
  - split; auto.
Qed.

End Reevaluation.

(** ** The invalidation discipline *)

(** C1.  In the crossover pass a pair is either left alone or mated, and
    when it is mated both children have an invalid fitness right after the
    step; likewise for the mutant of a mutation step.  No step of either pass
    makes an invalid fitness valid again.  So every individual that
    [toolbox.mate] or [toolbox.mutate] was applied to is an offspring whose
    fitness is invalid when the re-evaluation starts, and the re-evaluation
    calls the evaluator on it and leaves it with a valid fitness. *)
Theorem invalidation_until_reevaluated {RNG : Type} `{T : Tools RNG} (CXPB MUTPB : Q) :
  (∀ (h : list Individual) (s : RNG) log c1 c2 h' s' log',
     cx_step CXPB (h, s, log) (c1, c2) = Ok (h', s', log') →
     (log' = log ∧ h' = h ∨
      log' = log ++ [(c1, c2)] ∧ invalid_at h' c1 ∧ invalid_at h' c2) ∧
     (∀ x, invalid_at h x → invalid_at h' x)) ∧
  (∀ (h : list Individual) (s : RNG) log r h' s' log',
     mut_step MUTPB (h, s, log) r = Ok (h', s', log') →
     (log' = log ∧ h' = h ∨ log' = log ++ [r] ∧ invalid_at h' r) ∧
     (∀ x, invalid_at h x → invalid_at h' x)) ∧
  (∀ (h : list Individual) pop (s : RNG) h3 offspring s3 t,
     variation CXPB MUTPB h pop s = Ok (h3, offspring, s3, t) →
     ∀ r, touched t r →
       r ∈ offspring ∧ invalid_at h3 r ∧
       ∃ h4 calls, reevaluate h3 offspring = Ok (h4, calls) ∧
                   r ∈ calls ∧ valid_at h4 r).
Proof.
  split_and!.
  - intros h s log c1 c2 h' s' log' Hstep. split.
    + by eapply cx_step_log.
    + by eapply cx_step_frame.
  - intros h s log r h' s' log' Hstep. split.
    + by eapply mut_step_log.
    + by eapply mut_step_frame.
  - intros h pop s h3 offspring s3 t Hvar r Ht.
    destruct (variation_touched _ _ _ _ _ _ _ _ _ _ Hvar Ht) as [Hin Hinv].
    destruct (variation_offspring _ _ _ _ _ _ _ _ _ Hvar) as [Hnd Hlive].
    destruct (reevaluate_spec h3 offspring Hlive) as (h4 & Hre & _ & _).
    split_and!; [done..|].
    exists h4, (filter (λ r, is_invalid h3 r = true) offspring). split_and!.
    + done.
    + apply list_elem_of_filter. split; [by apply is_invalid_true | done].
    + pose proof (reevaluate_valid _ _ _ _ Hlive Hre) as Hval.
      rewrite Forall_forall in Hval. auto.
Qed.

Lemma invalidation_until_reevaluated_witness :
  ∃ h3 offspring s3,
    variation (1 # 2) (1 # 5) demo_heap [0; 1; 2; 3; 4] 2%Z
      = Ok (h3, offspring, s3, mkTouched [(5, 6); (7, 8)] [5]) ∧
    invalid_at h3 5 ∧ invalid_at h3 8.
Proof.
  destruct (variation (1 # 2) (1 # 5) demo_heap [0; 1; 2; 3; 4] 2%Z)
    as [[[[h3 offspring] s3] t]|e] eqn:Hvar; [|by vm_compute in Hvar].
  assert (Ht : t = mkTouched [(5, 6); (7, 8)] [5]).
  { vm_compute in Hvar. by injection Hvar as _ _ _ <-. }
  subst t. exists h3, offspring, s3. split; [done|].
  destruct (invalidation_until_reevaluated (1 # 2) (1 # 5)) as (_ & _ & H).
  split.
  - eapply (H _ _ _ _ _ _ _ Hvar). right. apply list_elem_of_here.
  - eapply (H _ _ _ _ _ _ _ Hvar). left. exists (7, 8).
    split; [apply list_elem_of_further, list_elem_of_here | by right].
Defined.

(** ** Minimal re-evaluation *)

Lemma count_occ_filter_NoDup (P : nat → Prop) `{∀ x, Decision (P x)} (l : list nat) (r : nat) :
  NoDup l → r ∈ l →
  count_occ Nat.eq_dec (filter P l) r = if decide (P r) then 1 else 0.
Proof.
  intros Hnd Hr. case_decide as HP.
  - apply NoDup_count_occ'.
    + by apply NoDup_ListNoDup, NoDup_filter.
    + apply list_elem_of_In, list_elem_of_filter. done.
  - apply count_occ_not_In. rewrite <- list_elem_of_In, list_elem_of_filter. tauto.
Qed.

(** C2.  In a generation's re-evaluation step the evaluator runs once for
    every offspring with an invalid fitness and not at all for one with a
    valid fitness: with [K] invalid offspring there are exactly [K] calls.
    The invalid offspring receive the fitness of their alleles; the valid
    ones, and every other object of the store, are left as they were. *)
Theorem reevaluation_minimal {RNG : Type} `{T : Tools RNG} (CXPB MUTPB : Q)
    (h : list Individual) (pop : list nat) (s : RNG) h3 offspring s3 t :
  variation CXPB MUTPB h pop s = Ok (h3, offspring, s3, t) →
  ∃ h4 calls,
    reevaluate h3 offspring = Ok (h4, calls) ∧
    length calls = count_invalid h3 offspring ∧
    (∀ r ind, r ∈ offspring → h3 !! r = Some ind → valid ind = false →
       count_occ Nat.eq_dec calls r = 1 ∧ h4 !! r = Some (evaluated ind)) ∧
    (∀ r ind, r ∈ offspring → h3 !! r = Some ind → valid ind = true →
       count_occ Nat.eq_dec calls r = 0 ∧ h4 !! r = Some ind) ∧
    (∀ x, x ∉ offspring → count_occ Nat.eq_dec calls x = 0 ∧ h4 !! x = h3 !! x).
Proof.
  intros Hvar.
  destruct (variation_offspring _ _ _ _ _ _ _ _ _ Hvar) as [Hnd Hlive].
  destruct (reevaluate_spec h3 offspring Hlive) as (h4 & Hre & _ & Hlook).
  exists h4, (filter (λ r, is_invalid h3 r = true) offspring). split_and!.
  - done.
  - done.
  - intros r ind Hr Hind Hv.
    assert (Hinv : is_invalid h3 r = true).
    { unfold is_invalid. by rewrite Hind, Hv. }
    split.
    + rewrite count_occ_filter_NoDup by done. by rewrite decide_True.
    + rewrite Hlook, decide_True by done. by rewrite Hind.
  - intros r ind Hr Hind Hv.
    assert (Hinv : is_invalid h3 r = false).
    { unfold is_invalid. by rewrite Hind, Hv. }
    split.
    + rewrite count_occ_filter_NoDup by done. rewrite decide_False; [done|].
      by rewrite Hinv.
    + rewrite Hlook, decide_False; [done|]. rewrite Hinv. by intros [_ ?].
  - intros x Hx. split.
    + apply count_occ_not_In. rewrite <- list_elem_of_In, list_elem_of_filter. tauto.
    + rewrite Hlook, decide_False; [done|]. tauto.
Qed.

Lemma reevaluation_minimal_witness :
  ∃ h3 offspring s3 t h4,
    variation (1 # 2) (1 # 5) demo_heap [0; 1; 2; 3; 4] 7%Z = Ok (h3, offspring, s3, t) ∧
    offspring = [5; 6; 7; 8; 9] ∧
    count_invalid h3 offspring = 3 ∧
    reevaluate h3 offspring = Ok (h4, [5; 6; 7]).
Proof.
  destruct (variation (1 # 2) (1 # 5) demo_heap [0; 1; 2; 3; 4] 7%Z)
    as [[[[h3 offspring] s3] t]|e] eqn:Hvar; [|by vm_compute in Hvar].
  destruct (reevaluation_minimal _ _ _ _ _ _ _ _ _ Hvar) as (h4 & calls & Hre & Hlen & _).
  exists h3, offspring, s3, t, h4. split; [done|].
  vm_compute in Hvar. injection Hvar as <- <- <- <-.
  split; [done|]. split; [by vm_compute|].
  rewrite Hre. vm_compute in Hre. by injection Hre as _ <-.
Defined.

(** ** Termination of the loop *)

Section Termination.

Context {RNG : Type} `{T : Tools RNG}.
Implicit Types (st : State RNG).

Lemma generation_inv CXPB MUTPB st st' :
  generation CXPB MUTPB st = Ok st' →
  ∃ h3 offspring s3 t h4 calls fits rep,
    variation CXPB MUTPB (heap st) (pop st) (rng st) = Ok (h3, offspring, s3, t) ∧
    reevaluate h3 offspring = Ok (h4, calls) ∧
    gather_fits h4 offspring = Ok fits ∧
    stats float_pow fits = Ok rep ∧
    st' = mkState h4 offspring s3 fits (S (g st)) (out st ++ [(S (g st), rep)]).
Proof.
  unfold generation. intros H.
  apply bind_Ok in H as ([[[h3 off] s3] t] & H1 & H).
  apply bind_Ok in H as ([h4 calls] & H2 & H).
  apply bind_Ok in H as (fits & H3 & H).
  apply bind_Ok in H as (rep & H4 & H). injection H as <-.
  by exists h3, off, s3, t, h4, calls, fits, rep.
Qed.

(** A generation advances the counter by one and prints one report. *)
Lemma generation_counter CXPB MUTPB st st' :
  generation CXPB MUTPB st = Ok st' →
  g st' = S (g st) ∧ length (out st') = S (length (out st)).
Proof.
  intros (h3 & off & s3 & t & h4 & calls & fits & rep & _ & _ & _ & _ & ->)%generation_inv.
  simpl. rewrite length_app. simpl. lia.
Qed.

(** The loop goes on exactly while the best fitness is below 100 and fewer
    than 1000 generations have run. *)
Lemma continue_true st :
  continue st = Ok true ↔
  ∃ m, py_maxZ (fits st) = Ok m ∧ (m < 100)%Z ∧ g st < 1000.
Proof.
  unfold continue. destruct (py_maxZ (fits st)) as [m|e]; simpl.
  - split.
    + intros [= [H1%Z.ltb_lt H2%Nat.ltb_lt]%andb_true_iff]. by exists m.
    + intros (m' & [= <-] & H1%Z.ltb_lt & H2%Nat.ltb_lt). by rewrite H1, H2.
  - split; [discriminate | by intros (? & ? & _)].
Qed.

Lemma continue_false st :
  continue st = Ok false ↔
  ∃ m, py_maxZ (fits st) = Ok m ∧ ((100 <= m)%Z ∨ 1000 ≤ g st).
Proof.
  unfold continue. destruct (py_maxZ (fits st)) as [m|e]; simpl.
  - split.
    + intros [= [H1%Z.ltb_ge|H2%Nat.ltb_ge]%andb_false_iff]; exists m; auto.
    + intros (m' & [= <-] & [H1%Z.ltb_ge|H2%Nat.ltb_ge]); f_equal;
        apply andb_false_iff; auto.
  - split; [discriminate | by intros (? & ? & _)].
Qed.

(** More fuel does not change what a finished loop returned. *)
Lemma evolve_fuel_mono CXPB MUTPB fuel fuel' st r :
  evolve CXPB MUTPB fuel st = Some r → fuel ≤ fuel' →
  evolve CXPB MUTPB fuel' st = Some r.
Proof.
  revert fuel' st. induction fuel as [|fuel IH]; intros fuel' st Hev Hle.
  - destruct fuel'; [done|]. simpl in *.
    destruct (continue st) as [[|]|]; done.
  - destruct fuel' as [|fuel']; [lia|]. simpl in *.
    destruct (continue st) as [[|]|]; [|done..].
    destruct (generation CXPB MUTPB st) as [st'|]; [|done].
    apply IH; [done | lia].
Qed.

(** A budget of [1000 - g] runs of the body is always enough, and the loop
    stops in a state that fails the loop test. *)
Lemma evolve_terminates CXPB MUTPB fuel st :
  1000 ≤ fuel + g st →
  ∃ r, evolve CXPB MUTPB fuel st = Some r ∧
       ∀ st', r = Ok st' →
         continue st' = Ok false ∧
         g st ≤ g st' ∧ (g st ≤ 1000 → g st' ≤ 1000) ∧
         length (out st') = length (out st) + (g st' - g st).
Proof.
  revert st. induction fuel as [|fuel IH]; intros st Hfuel.
  - simpl. destruct (continue st) as [[|]|e] eqn:Hc.
    + apply continue_true in Hc as (m & _ & _ & Hg). simpl in Hfuel. lia.
    + eexists. split; [done|]. intros st' [= <-]. split_and!; [done|lia..].
    + eexists. split; [done|]. intros st' [=].
  - simpl. destruct (continue st) as [[|]|e] eqn:Hc.
    + apply continue_true in Hc as (m & _ & _ & Hg).
      destruct (generation CXPB MUTPB st) as [st1|e] eqn:Hgen.
      * destruct (generation_counter _ _ _ _ Hgen) as [Hg1 Hout1].
        destruct (IH st1) as (r & Hev & Hr); [lia|].
        exists r. split; [done|]. intros st' ->.
        destruct (Hr st' eq_refl) as (Hc' & Hle & Hcap & Hout).
        split_and!; [done|lia..].
      * eexists. split; [done|]. intros st' [=].
    + eexists. split; [done|]. intros st' [= <-]. split_and!; [done|lia..].
    + eexists. split; [done|]. intros st' [=].
Qed.

Lemma initial_counter (s : RNG) st :
  initial s = Ok st → g st = 0 ∧ out st = [].
Proof.
  unfold initial. destruct (population 300 [] s) as [[h pop] s1].
  intros H. inv_bind H. by injection H as <-.
Qed.

End Termination.

(** ** Validity of the population *)

Lemma raises_only_Ok {A} (e0 : exn) (a : A) : raises_only e0 (Ok a).
Proof. intros e [=]. Qed.

Lemma raises_only_Raise {A} (e0 : exn) : raises_only e0 (@Raise A e0).
Proof. by intros e [= <-]. Qed.

Lemma raises_only_bind {A B} (e0 : exn) (m : result A) (f : A → result B) :
  raises_only e0 m → (∀ a, m = Ok a → raises_only e0 (f a)) →
  raises_only e0 (m ≫= f).
Proof.
  intros Hm Hf e. destruct m as [a|e']; simpl.
  - by apply Hf.
  - intros [= <-]. by apply Hm.
Qed.

Lemma raises_only_from_option {A} (e0 : exn) (o : option A) :
  raises_only e0 (from_option e0 o).
Proof. destruct o; [apply raises_only_Ok | apply raises_only_Raise]. Qed.

Lemma raises_only_foldM {A B} (e0 : exn) (f : A → B → result A) (l : list B) (acc : A) :
  (∀ a x, raises_only e0 (f a x)) → raises_only e0 (foldM f l acc).
Proof.
  intros Hf. revert acc. induction l as [|x l IH]; intros acc; simpl.
  - apply raises_only_Ok.
  - apply raises_only_bind; auto.
Qed.

Lemma raises_only_forM {A B} (e0 : exn) (f : A → result B) (l : list A) :
  (∀ x, raises_only e0 (f x)) → raises_only e0 (forM f l).
Proof.
  intros Hf. induction l as [|x l IH]; simpl.
  - apply raises_only_Ok.
  - apply raises_only_bind; [apply Hf|]. intros y _.
    apply raises_only_bind; [apply IH|]. intros ys _. apply raises_only_Ok.
Qed.

Lemma Forall_zip_fst {A B} (P : A → Prop) (l : list A) (k : list B) :
  length l = length k → Forall (λ p, P p.1) (zip l k) → Forall P l.
Proof.
  revert k. induction l as [|x l IH]; intros k Hlen HF; [constructor|].
  destruct k as [|y k]; [done|].
  simpl in *. apply Forall_cons in HF as [Hx HF]. constructor; [done|].
  apply (IH k); [lia | done].
Qed.

Lemma raises_only_deref (h : list Individual) (r : nat) :
  raises_only LookupFault (deref h r).
Proof. apply raises_only_from_option. Qed.

Lemma raises_only_clone_all (h : list Individual) (rs : list nat) :
  raises_only LookupFault (clone_all h rs).
Proof.
  revert h. induction rs as [|r rs IH]; intros h; simpl.
  - apply raises_only_Ok.
  - apply raises_only_bind.
    + apply raises_only_bind; [apply raises_only_deref|].
      intros; apply raises_only_Ok.
    + intros [h1 c] _. apply raises_only_bind; [apply IH|].
      intros [h2 cs] _. apply raises_only_Ok.
Qed.

Section Validity.

Context {RNG : Type} `{T : Tools RNG}.
Implicit Types (h : list Individual) (s : RNG) (r x : nat) (st : State RNG).

Lemma raises_only_variation CXPB MUTPB h pop s :
  raises_only LookupFault (variation CXPB MUTPB h pop s).
Proof.
  unfold variation. apply raises_only_bind.
  { unfold select_and_clone. apply raises_only_bind.
    - apply raises_only_forM. intros; apply raises_only_deref.
    - intros inds _. destruct (select inds (length pop) s) as [chosen s1].
      apply raises_only_bind.
      + apply raises_only_forM. intros; apply raises_only_from_option.
      + intros rs _. apply raises_only_bind; [apply raises_only_clone_all|].
        intros [h1 off] _. apply raises_only_Ok. }
  intros [[h1 off] s1] _. apply raises_only_bind.
  { apply raises_only_foldM. intros [[h2 s2] log] [c1 c2]. unfold cx_step.
    destruct (random_random s2) as [x s3]. destruct (Qlt_le_dec x CXPB).
    - apply raises_only_bind; [apply raises_only_deref|]. intros i1 _.
      apply raises_only_bind; [apply raises_only_deref|]. intros i2 _.
      destruct (mate (alleles i1) (alleles i2) s3) as [[a1 a2] s4].
      apply raises_only_Ok.
    - apply raises_only_Ok. }
  intros [[h2 s2] m] _. apply raises_only_bind.
  { apply raises_only_foldM. intros [[h3 s3] log] r. unfold mut_step.
    destruct (random_random s3) as [x s4]. destruct (Qlt_le_dec x MUTPB).
    - apply raises_only_bind; [apply raises_only_deref|]. intros i _.
      destruct (mutate (alleles i) s4) as [a s5]. apply raises_only_Ok.
    - apply raises_only_Ok. }
  intros [[h3 s3] u] _. apply raises_only_Ok.
Qed.

Lemma valid_at_set_values h r fit x :
  fit ≠ [] → valid_at h x → valid_at (set_values h r fit) x.
Proof.
  intros Hfit (ind & Hx & Hv). destruct (decide (r = x)) as [->|Hne].
  - eexists. rewrite lookup_set_values_eq, Hx. split; [done|].
    unfold valid. simpl. by destruct fit.
  - exists ind. by rewrite lookup_set_values_ne.
Qed.

Lemma valid_at_set_values_eq h r fit :
  fit ≠ [] → is_Some (h !! r) → valid_at (set_values h r fit) r.
Proof.
  intros Hfit [ind Hr]. eexists. rewrite lookup_set_values_eq, Hr. split; [done|].
  unfold valid. simpl. by destruct fit.
Qed.

(** [fitness.values[0]] is defined exactly for a valid fitness. *)
Lemma values0_Ok h r : valid_at h r ↔ ∃ v, values0 h r = Ok v.
Proof.
  unfold values0, valid_at, deref, valid. split.
  - intros (ind & -> & Hv). simpl. destruct (wvalues ind) as [|v vs]; [done|].
    by exists v.
  - intros [v Hv]. destruct (h !! r) as [ind|]; [|done]. simpl in Hv.
    exists ind. split; [done|]. by destruct (wvalues ind).
Qed.

Lemma gather_fits_valid h pop fits :
  gather_fits h pop = Ok fits → Forall (valid_at h) pop ∧ length fits = length pop.
Proof.
  intros HF%forM_Ok. split.
  - apply Forall_forall. intros r [i Hi]%list_elem_of_lookup.
    destruct (Forall2_lookup_l _ _ _ _ _ HF Hi) as (v & _ & Hv).
    apply values0_Ok. eauto.
  - symmetry. by eapply Forall2_length.
Qed.

Lemma gather_fits_Ok h pop :
  Forall (valid_at h) pop → ∃ fits, gather_fits h pop = Ok fits.
Proof.
  induction 1 as [|r pop [v Hv]%values0_Ok _ [fits IH]].
  - by exists [].
  - exists (v :: fits). unfold gather_fits in *. simpl. by rewrite Hv, IH.
Qed.

Lemma stats_Ok pow (fits : list Z) : fits ≠ [] → ∃ rep, stats pow fits = Ok rep.
Proof.
  intros Hne. destruct fits as [|x fits]; [done|]. unfold stats.
  cbn [length Nat.eqb map py_min py_max]. eexists. reflexivity.
Qed.

Lemma stats_max pow (fits : list Z) rep :
  stats pow fits = Ok rep → py_max (map inject_Z fits) = Ok (r_max rep).
Proof.
  destruct fits as [|x fits]; [done|]. unfold stats.
  cbn [length Nat.eqb map py_min py_max mbind result_bind].
  by intros [= <-].
Qed.

Lemma raises_only_stats pow (fits : list Z) :
  raises_only ZeroDivisionError (stats pow fits).
Proof.
  destruct fits as [|x fits].
  - apply raises_only_Raise.
  - destruct (stats_Ok pow (x :: fits)) as [rep ->]; [done|]. apply raises_only_Ok.
Qed.

(** A generation never trips over a deleted fitness. *)
Lemma generation_no_IndexError CXPB MUTPB st :
  generation CXPB MUTPB st ≠ Raise IndexError.
Proof.
  unfold generation.
  destruct (variation CXPB MUTPB (heap st) (pop st) (rng st))
    as [[[[h3 off] s3] t]|e] eqn:Hvar; simpl.
  2:{ intros [= ->]. by apply raises_only_variation in Hvar. }
  destruct (variation_offspring _ _ _ _ _ _ _ _ _ Hvar) as [_ Hlive].
  destruct (reevaluate_spec h3 off Hlive) as (h4 & Hre & _ & _).
  pose proof (reevaluate_valid _ _ _ _ Hlive Hre) as Hval.
  rewrite Hre. simpl. destruct (gather_fits_Ok _ _ Hval) as [fits ->]. simpl.
  destruct (stats float_pow fits) as [rep|e] eqn:Hstats; simpl; [done|].
  intros [= ->]. by apply raises_only_stats in Hstats.
Qed.

Lemma generation_consistent CXPB MUTPB st st' :
  generation CXPB MUTPB st = Ok st' → consistent st'.
Proof.
  intros (h3 & off & s3 & t & h4 & calls & fits & rep
          & Hvar & Hre & Hfits & _ & ->)%generation_inv.
  split; simpl; [|done]. by eapply gather_fits_valid.
Qed.

Lemma assign_Ok h r fit :
  is_Some (h !! r) → assign h (r, fit) = Ok (set_values h r fit).
Proof. intros [ind Hr]. unfold assign, deref. simpl. by rewrite Hr. Qed.

Lemma assign_fold (ps : list (nat * list Z)) h :
  Forall (λ p, is_Some (h !! p.1) ∧ p.2 ≠ []) ps →
  ∃ h', foldM assign ps h = Ok h' ∧ length h' = length h ∧
        (∀ x, valid_at h x → valid_at h' x) ∧
        Forall (λ p, valid_at h' p.1) ps.
Proof.
  revert h. induction ps as [|[r fit] ps IH]; intros h Hps.
  - exists h. split_and!; [done..|constructor].
  - apply Forall_cons in Hps as [[[ind Hr] Hfit] Hps]. simpl in *.
    rewrite assign_Ok by eauto. simpl.
    destruct (IH (set_values h r fit)) as (h' & Hfold & Hlen & Hkeep & Hall).
    { eapply Forall_impl; [exact Hps|]. intros p [Hp ?]. split; [|done].
      revert Hp. by rewrite !lookup_lt_is_Some, length_set_values. }
    exists h'. split_and!; [done| | |].
    + by rewrite Hlen, length_set_values.
    + intros x Hx. by apply Hkeep, valid_at_set_values.
    + constructor; [|done]. simpl. apply Hkeep, valid_at_set_values_eq; eauto.
Qed.

Lemma initRepeat_length {X} (func : RNG → X * RNG) n s :
  length (initRepeat func n s).1 = n.
Proof.
  revert s. induction n as [|n IH]; intros s; simpl; [done|].
  destruct (func s) as [x s1]. specialize (IH s1).
  destruct (initRepeat func n s1) as [xs s2]. simpl in *. by rewrite IH.
Qed.

(** The loop is entered with 300 individuals, all of them evaluated. *)
Lemma initial_Ok s :
  ∃ st, initial s = Ok st ∧ consistent st ∧ length (pop st) = 300.
Proof.
  unfold initial, population.
  pose proof (initRepeat_length individual 300 s) as Hlen.
  destruct (initRepeat individual 300 s) as [inds s1]. simpl in Hlen.
  cbn [app length].
  assert (Hlive : Forall (λ r, is_Some (inds !! r)) (seq 0 (length inds))).
  { apply Forall_forall. intros r Hr%elem_of_seq. apply lookup_lt_is_Some. lia. }
  unfold evaluate_population.
  assert (Hfit : ∃ fitnesses,
    forM (λ r, ind ← deref inds r; Ok (evaluate (alleles ind))) (seq 0 (length inds))
      = Ok fitnesses ∧ Forall (λ fit, fit ≠ []) fitnesses).
  { clear Hlen. unfold deref.
    induction Hlive as [|r rs [ind Hr] _ (fs & IH1 & IH2)].
    - exists []. split; [done|constructor].
    - exists (evaluate (alleles ind) :: fs). cbn [forM].
      rewrite Hr. simpl. rewrite IH1. simpl. split; [done|]. by constructor. }
  destruct Hfit as (fitnesses & Hfit & Hne). rewrite Hfit. simpl.
  apply forM_Ok, Forall2_length in Hfit.
  destruct (assign_fold (zip (seq 0 (length inds)) fitnesses) inds)
    as (h' & -> & _ & _ & Hall).
  { apply Forall_forall. intros [r fit] Hp. simpl.
    pose proof (elem_of_zip_l _ _ _ _ Hp) as Hr.
    pose proof (elem_of_zip_r _ _ _ _ Hp) as Hf.
    rewrite Forall_forall in Hlive. rewrite Forall_forall in Hne. auto. }
  simpl. apply Forall_zip_fst in Hall; [|done].
  destruct (gather_fits_Ok _ _ Hall) as [fits Hfits]. rewrite Hfits. simpl.
  eexists. split; [done|]. split; [by split|]. simpl. by rewrite length_seq.
Qed.

End Validity.

(** C10.  Whenever the loop test or the statistics are computed every
    member of the population has a valid fitness.  The loop is entered in
    such a state; a generation never raises [IndexError], and the state it
    returns is again such a state.  Hence in every state the loop test sees,
    [ind.fitness.values[0]] is defined for each member of [pop], and [fits]
    holds exactly these values. *)
Theorem population_always_valid {RNG : Type} `{T : Tools RNG} :
  (∀ s : RNG, ∃ st, initial s = Ok st ∧ consistent st) ∧
  (∀ CXPB MUTPB (st : State RNG),
     generation CXPB MUTPB st ≠ Raise IndexError ∧
     ∀ st', generation CXPB MUTPB st = Ok st' → consistent st') ∧
  (∀ CXPB MUTPB (st : State RNG),
     reachable CXPB MUTPB st →
     consistent st ∧ length (fits st) = length (pop st) ∧
     ∀ r, r ∈ pop st → ∃ v, values0 (heap st) r = Ok v).
Proof.
  assert (Hreach : ∀ CXPB MUTPB (st : State RNG),
            reachable CXPB MUTPB st → consistent st).
  { intros CXPB MUTPB st [s st0 Hinit|st0 st1 _ _ Hgen].
    - destruct (initial_Ok s) as (st' & Hst' & Hcons & _). congruence.
    - by eapply generation_consistent. }
  split_and!.
  - intros s. destruct (initial_Ok s) as (st & Hst & Hcons & _). eauto.
  - intros CXPB MUTPB st. split.
    + apply generation_no_IndexError.
    + intros st'. apply generation_consistent.
  - intros CXPB MUTPB st Hst. destruct (Hreach _ _ _ Hst) as [Hval Hfits].
    split_and!; [by split | by eapply gather_fits_valid |].
    intros r Hr. apply values0_Ok. rewrite Forall_forall in Hval. auto.
Qed.

Lemma population_always_valid_witness :
  ∃ st, generation (1 # 2) (1 # 5) demo_state = Ok st ∧ consistent st.
Proof.
  destruct (generation (1 # 2) (1 # 5) demo_state) as [st|e] eqn:Hgen;
    [|by vm_compute in Hgen].
  exists st. split; [done|].
  by apply (proj1 (proj2 (population_always_valid (T := lcg_tools))) (1 # 2) (1 # 5) demo_state).
Defined.

(** ** Where the loop stops *)

Lemma py_maxZ_spec (l : list Z) (m : Z) :
  py_maxZ l = Ok m → m ∈ l ∧ ∀ z, z ∈ l → (z <= m)%Z.
Proof.
  destruct l as [|x l]; [done|]. simpl. intros [= <-].
  revert x. induction l as [|y l IH]; intros x; simpl.
  - split; [apply list_elem_of_here|]. intros z ->%list_elem_of_singleton. lia.
  - destruct (Z.ltb_spec x y) as [Hlt|Hge].
    + destruct (IH y) as [Hin Hmax]. split.
      * by apply list_elem_of_further.
      * intros z [->|Hz]%elem_of_cons; [|by apply Hmax].
        pose proof (Hmax y (list_elem_of_here _ _)). lia.
    + destruct (IH x) as [Hin Hmax]. split.
      * apply elem_of_cons in Hin as [->|Hin]; [apply list_elem_of_here|].
        by do 2 apply list_elem_of_further.
      * intros z [->|[->|Hz]%elem_of_cons]%elem_of_cons.
        -- apply Hmax, list_elem_of_here.
        -- pose proof (Hmax x (list_elem_of_here _ _)). lia.
        -- by apply Hmax, list_elem_of_further.
Qed.

Section Reachable.

Context {RNG : Type} `{T : Tools RNG}.
Implicit Types (st : State RNG).

Lemma reachable_consistent CXPB MUTPB st :
  reachable CXPB MUTPB st → consistent st.
Proof.
  intros [s st0 Hinit|st0 st1 _ _ Hgen].
  - destruct (initial_Ok s) as (st' & Hst' & Hcons & _). congruence.
  - by eapply generation_consistent.
Qed.

(** The loop, started in a state the loop test can see, ends in such a
    state, and there the test fails. *)
Lemma evolve_reachable CXPB MUTPB fuel st st' :
  reachable CXPB MUTPB st → evolve CXPB MUTPB fuel st = Some (Ok st') →
  reachable CXPB MUTPB st' ∧ continue st' = Ok false.
Proof.
  revert st. induction fuel as [|fuel IH]; intros st Hreach; cbn [evolve].
  - destruct (continue st) as [[|]|e] eqn:Hc; [done| |done]. by intros [= <-].
  - destruct (continue st) as [[|]|e] eqn:Hc; [| by intros [= <-] | done].
    destruct (generation CXPB MUTPB st) as [st1|e] eqn:Hgen; [|done].
    apply IH. by eapply reach_generation.
Qed.

End Reachable.

(** C3.  [main] terminates: a budget of 1000 runs of the loop body is
    enough whatever the random source and the operators do, and a larger
    budget changes nothing.  When the loop ends normally the body ran [g]
    times, one report each, with [g] at most 1000; [fits] holds the fitness
    values of the members of the final population, and the loop test failed:
    the greatest of these values is at least 100 or [g] is 1000.  The loop
    stops as soon as this is so: from a state in which some fitness value is
    100 or more, or [g] has reached 1000, the body does not run again; and
    from a state in which every fitness value is below 100 and [g] is below
    1000 it does run. *)
Theorem main_terminates {RNG : Type} `{T : Tools RNG} (fuel : nat) (s : RNG) :
  1000 ≤ fuel →
  (∃ r, main 1000 s = Some r ∧ main fuel s = Some r ∧
     ∀ st, r = Ok st →
       g st ≤ 1000 ∧ length (out st) = g st ∧
       consistent st ∧
       ∃ m, py_maxZ (fits st) = Ok m ∧
            m ∈ fits st ∧ (∀ x, x ∈ fits st → (x <= m)%Z) ∧
            ((100 <= m)%Z ∨ g st = 1000)) ∧
  (∀ CXPB MUTPB n st m,
     py_maxZ (fits st) = Ok m → (100 <= m)%Z ∨ 1000 ≤ g st →
     evolve CXPB MUTPB n st = Some (Ok st)) ∧
  (∀ CXPB MUTPB n st,
     fits st ≠ [] → (∃ x, x ∈ fits st ∧ (100 <= x)%Z) ∨ 1000 ≤ g st →
     evolve CXPB MUTPB n st = Some (Ok st)) ∧
  (∀ CXPB MUTPB n st,
     fits st ≠ [] → (∀ x, x ∈ fits st → (x < 100)%Z) → g st < 1000 →
     evolve CXPB MUTPB (S n) st
     = match generation CXPB MUTPB st with
       | Raise e => Some (Raise e)
       | Ok st' => evolve CXPB MUTPB n st'
       end).
Proof.
  intros Hfuel.
  assert (Hmax : ∀ st : State RNG, fits st ≠ [] →
            ∃ m, py_maxZ (fits st) = Ok m ∧ m ∈ fits st ∧
                 ∀ x, x ∈ fits st → (x <= m)%Z).
  { intros st Hne. destruct (py_maxZ (fits st)) as [m|e] eqn:Hm.
    - exists m. split; [done|]. by apply py_maxZ_spec.
    - destruct (fits st); done. }
  split_and!.
  - unfold main. destruct (initial s) as [st0|e] eqn:Hinit.
    + destruct (initial_counter _ _ Hinit) as [Hg0 Hout0].
      destruct (evolve_terminates (1 # 2) (1 # 5) 1000 st0) as (r & Hev & Hr); [lia|].
      exists r. split_and!; [done | by eapply evolve_fuel_mono |].
      intros st ->. destruct (Hr st eq_refl) as (Hc & Hle & Hcap & Hout).
      rewrite Hg0, Hout0 in *. simpl in Hout.
      assert (Hreach : reachable (1 # 2) (1 # 5) st).
      { eapply evolve_reachable; [|exact Hev]. by eapply reach_initial. }
      apply continue_false in Hc as (m & Hm & Hstop).
      split_and!; [lia | lia | by eapply reachable_consistent |].
      exists m. destruct (py_maxZ_spec _ _ Hm) as [Hin Hle'].
      split_and!; [done..|]. destruct Hstop; [by left | right; lia].
    + exists (Raise e). split_and!; [done..|]. intros st [=].
  - intros CXPB MUTPB n st m Hm Hstop.
    assert (Hc : continue st = Ok false) by (apply continue_false; eauto).
    destruct n; simpl; by rewrite Hc.
  - intros CXPB MUTPB n st Hne Hstop.
    destruct (Hmax st Hne) as (m & Hm & _ & Hle).
    assert (Hc : continue st = Ok false).
    { apply continue_false. exists m. split; [done|].
      destruct Hstop as [(x & Hx & Hx100)|Hg]; [left|by right].
      pose proof (Hle x Hx). lia. }
    destruct n; simpl; by rewrite Hc.
  - intros CXPB MUTPB n st Hne Hlow Hg.
    destruct (Hmax st Hne) as (m & Hm & Hin & _).
    assert (Hc : continue st = Ok true).
    { apply continue_true. exists m. split_and!; [done| |done]. by apply Hlow. }
    cbn [evolve]. by rewrite Hc.
Qed.

Lemma main_terminates_witness :
  ∃ r, main 1000 2024%Z = Some r ∧ main 5000 2024%Z = Some r.
Proof.
  destruct (main_terminates (T := lcg_tools) 5000 2024%Z) as [(r & H1 & H2 & _) _].
  - apply Nat.leb_le. vm_compute. reflexivity.
  - exists r. split; [exact H1 | exact H2].
Defined.

(** ** The statistics *)

Lemma foldl_Zadd (l : list Z) (a : Z) : foldl Z.add a l = (a + foldl Z.add 0 l)%Z.
Proof.
  revert a. induction l as [|x l IH]; intros a; simpl; [lia|].
  rewrite (IH (a + x)%Z), (IH (0 + x)%Z). lia.
Qed.

Lemma py_sumZ_cons (x : Z) (l : list Z) : py_sumZ (x :: l) = (x + py_sumZ l)%Z.
Proof. unfold py_sumZ. simpl. apply foldl_Zadd. Qed.

Section Statistics.

Implicit Types (l fits : list Q) (x y m : Q).











End Statistics.

(** ** Binary64 arithmetic on integers *)

Section Binary64.












































End Binary64.

Section ExactSums.

Implicit Types (l fits : list Z) (x acc : Z).











End ExactSums.






(** The first generation of the reference run from the seed 2024, computed:
    the loop is entered, and after one run of its body 300 fitness values
    that sum up to 16245 are gathered and the mean
    [7620934994441011 / 2^47], which Python shows as [54.15], is printed. *)
Lemma first_generation :
  match initial (T := lcg_tools) 2024%Z with
  | Ok st0 =>
      continue st0 = Ok true ∧
      match generation (1 # 2) (1 # 5) st0 with
      | Ok st1 =>
          (g st1, (out st1).*1, r_mean <$> (out st1).*2,
           length (fits st1), py_sumZ (fits st1))
          = (1, [1], [S754_finite false 7620934994441011 (-47)], 300, 16245%Z)
      | Raise _ => False
      end
  | Raise _ => False
  end.
Proof. vm_compute. split; reflexivity. Qed.

Lemma first_generation_run :
  ∃ st0 st1 rep,
    initial (T := lcg_tools) 2024%Z = Ok st0 ∧ continue st0 = Ok true ∧
    generation (1 # 2) (1 # 5) st0 = Ok st1 ∧
    g st1 = 1 ∧ out st1 = [(1, rep)] ∧
    r_mean rep = S754_finite false 7620934994441011 (-47) ∧
    length (fits st1) = 300 ∧ py_sumZ (fits st1) = 16245%Z.
Proof.
  pose proof first_generation as H.
  destruct (initial (T := lcg_tools) 2024%Z) as [st0|e]; [|destruct H].
  destruct H as [Hc H].
  destruct (generation (1 # 2) (1 # 5) st0) as [st1|e] eqn:Hgen; [|destruct H].
  injection H as Hg Hout Hmean Hlen Hsum.
  destruct (out st1) as [|[n rep] [|? ?]] eqn:Ho; [discriminate Hout| |discriminate Hout].
  cbn in Hout, Hmean. injection Hout as ->. injection Hmean as Hmean.
  exists st0, st1, rep. split; [reflexivity|]. split; [exact Hc|].
  split; [exact Hgen|]. split; [exact Hg|]. split; [exact Ho|].
  split; [exact Hmean|]. split; [exact Hlen | exact Hsum].
Qed.

(** The state after this generation is one the loop test sees. *)
Lemma reach_first_generation :
  ∃ st rep,
    reachable (T := lcg_tools) (1 # 2) (1 # 5) st ∧
    g st = 1 ∧ out st = [(1, rep)] ∧
    r_mean rep = S754_finite false 7620934994441011 (-47) ∧
    length (fits st) = 300 ∧ py_sumZ (fits st) = 16245%Z.
Proof.
  destruct first_generation_run as (st0 & st1 & rep & H0 & Hc & H1 & H).
  exists st1, rep. split; [|exact H].
  exact (reach_generation _ _ _ _ (reach_initial _ _ _ _ H0) Hc H1).
Qed.


(** ** Two-point crossover *)

Lemma swap_range_lookup (i j : nat) (a b : list Z) (k : nat) :
  i ≤ j → j ≤ length a → j ≤ length b →
  (swap_range i j a b).1 !! k = (if decide (i ≤ k < j) then b !! k else a !! k) ∧
  (swap_range i j a b).2 !! k = (if decide (i ≤ k < j) then a !! k else b !! k).
Proof.
  intros Hij Ha Hb. unfold swap_range. simpl.
  assert (Hin : ∀ u v : list Z, j ≤ length u → j ≤ length v →
    (take i u ++ take (j - i) (drop i v) ++ drop j u) !! k
    = if decide (i ≤ k < j) then v !! k else u !! k).
  { intros u v Hu Hv. destruct (decide (k < i)) as [Hlt|Hge].
    - rewrite lookup_app_l by (rewrite length_take; lia).
      rewrite lookup_take_lt by done. rewrite decide_False by lia. done.
    - rewrite lookup_app_r by (rewrite length_take; lia).
      rewrite length_take_le by lia.
      destruct (decide (k < j)) as [Hlt|Hge'].
      + rewrite lookup_app_l by (rewrite length_take, length_drop; lia).
        rewrite lookup_take_lt by lia. rewrite lookup_drop.
        rewrite decide_True by lia. f_equal. lia.
      + rewrite lookup_app_r by (rewrite length_take, length_drop; lia).
        rewrite length_take_le by (rewrite length_drop; lia).
        rewrite lookup_drop. rewrite decide_False by lia. f_equal. lia. }
  split; by apply Hin.
Qed.

Lemma cx_points_elem (N i j : nat) : (i, j) ∈ cx_points N ↔ i < j ∧ j ≤ N.
Proof.
  unfold cx_points. rewrite list_elem_of_bind. split.
  - intros (i' & Hj & Hi'%elem_of_seq).
    apply list_elem_of_bind in Hj as (j' & Hp%list_elem_of_singleton & Hj'%elem_of_seq).
    injection Hp as -> ->. lia.
  - intros [Hij HjN]. exists i. split.
    + apply list_elem_of_bind. exists j. split; [apply list_elem_of_here|].
      apply elem_of_seq. lia.
    + apply elem_of_seq. lia.
Qed.

Lemma cx_points_NoDup (N : nat) : NoDup (cx_points N).
Proof.
  unfold cx_points. apply NoDup_bind.
  - intros i1 i2 [i j] _ _ H1 H2.
    apply list_elem_of_bind in H1 as (j1 & Hp1%list_elem_of_singleton & _).
    apply list_elem_of_bind in H2 as (j2 & Hp2%list_elem_of_singleton & _).
    congruence.
  - intros i _. apply NoDup_bind.
    + intros j1 j2 p _ _ Hp1%list_elem_of_singleton Hp2%list_elem_of_singleton.
      congruence.
    + intros j _. apply NoDup_singleton.
    + apply NoDup_seq.
  - apply NoDup_seq.
Qed.

(** C7.  The two-point crossover swaps the allele sub-range [i, j) of the
    two genomes: the indices (2, 5) turn [0,0,0,0,0,0] and [1,1,1,1,1,1] into
    [0,0,1,1,1,0] and [1,1,0,0,0,1], and in general the alleles at the
    positions [i <= k < j] change sides while the others stay.  The pair of
    indices is drawn from the pairs with [0 <= i < j <= N], each of which is
    listed once: every such pair is the outcome of exactly one value of the
    uniform draw, and every outcome is such a swap. *)
Theorem two_point_crossover :
  swap_range 2 5 [0; 0; 0; 0; 0; 0]%Z [1; 1; 1; 1; 1; 1]%Z
    = ([0; 0; 1; 1; 1; 0]%Z, [1; 1; 0; 0; 0; 1]%Z) ∧
  (∀ i j a b k, i ≤ j → j ≤ length a → j ≤ length b →
     (swap_range i j a b).1 !! k = (if decide (i ≤ k < j) then b !! k else a !! k) ∧
     (swap_range i j a b).2 !! k = (if decide (i ≤ k < j) then a !! k else b !! k)) ∧
  (∀ N i j, (i, j) ∈ cx_points N ↔ i < j ∧ j ≤ N) ∧
  (∀ N, NoDup (cx_points N)) ∧
  (∀ (RNG : Type) (randint : Z → Z → RNG → Z * RNG) ind1 ind2 s i j,
     i < j → j ≤ length ind1 →
     ∃ k, cx_points (length ind1) !! k = Some (i, j) ∧
          (∀ k', cx_points (length ind1) !! k' = Some (i, j) → k' = k) ∧
          ∀ s1, draw_position randint (length (cx_points (length ind1))) s = (k, s1) →
                spec_cxTwoPoint randint ind1 ind2 s = (swap_range i j ind1 ind2, s1)) ∧
  (∀ (RNG : Type) (randint : Z → Z → RNG → Z * RNG) ind1 ind2 s,
     (spec_cxTwoPoint randint ind1 ind2 s).1 = (ind1, ind2) ∨
     ∃ i j, i < j ∧ j ≤ length ind1 ∧
            (spec_cxTwoPoint randint ind1 ind2 s).1 = swap_range i j ind1 ind2) ∧
  mate (T := lcg_tools) = spec_cxTwoPoint lcg_randint.
Proof.
  split_and!.
  - reflexivity.
  - apply swap_range_lookup.
  - apply cx_points_elem.
  - apply cx_points_NoDup.
  - intros RNG randint ind1 ind2 s i j Hij Hj.
    assert (Hin : (i, j) ∈ cx_points (length ind1)) by (by apply cx_points_elem).
    apply list_elem_of_lookup in Hin as [k Hk]. exists k. split_and!.
    + done.
    + intros k' Hk'. by eapply NoDup_lookup; [apply cx_points_NoDup|..].
    + intros s1 Hdraw. unfold spec_cxTwoPoint.
      destruct (cx_points (length ind1)) as [|p pts] eqn:Hpts; [done|].
      rewrite Hdraw, Hk. done.
  - intros RNG randint ind1 ind2 s. unfold spec_cxTwoPoint.
    destruct (cx_points (length ind1)) as [|p pts] eqn:Hpts; [by left|].
    destruct (draw_position randint (length (p :: pts)) s) as [k s1].
    destruct ((p :: pts) !! k) as [[i j]|] eqn:Hk; [|by left].
    right. exists i, j.
    assert (Hin : (i, j) ∈ cx_points (length ind1)).
    { rewrite Hpts. by eapply list_elem_of_lookup_2. }
    apply cx_points_elem in Hin as [? ?]. done.
  - reflexivity.
Qed.

(** ** Progress of a generation *)

Section Progress.

Context {RNG : Type} `{T : Tools RNG} `{!SelectorContract T}.
Implicit Types (h : list Individual) (s : RNG) (r x : nat) (st : State RNG).

Lemma view_Ok h pop :
  Forall (λ r, is_Some (h !! r)) pop →
  ∃ inds, view h pop = Ok inds ∧ length inds = length pop.
Proof.
  intros Hlive. destruct (live_elements h pop Hlive) as [inds HF].
  exists inds. split; [|symmetry; by eapply Forall2_length].
  apply forM_Ok. eapply Forall2_impl; [exact HF|].
  intros r ind Hr. by apply deref_Ok.
Qed.

Lemma pick_Ok (pop chosen : list nat) :
  Forall (λ i, i < length pop) chosen →
  ∃ picked, forM (λ i, from_option LookupFault (pop !! i)) chosen = Ok picked ∧
            Forall (λ r, r ∈ pop) picked ∧ length picked = length chosen.
Proof.
  induction 1 as [|i chosen Hi _ (picked & IH & Hin & Hlen)].
  - exists []. split_and!; [done|constructor|done].
  - destruct (lookup_lt_is_Some_2 pop i Hi) as [r Hr].
    exists (r :: picked). simpl. rewrite Hr. simpl. rewrite IH. simpl.
    split_and!; [done| |by rewrite Hlen].
    constructor; [by eapply list_elem_of_lookup_2 | done].
Qed.

Lemma select_and_clone_Ok h pop s :
  Forall (λ r, is_Some (h !! r)) pop →
  ∃ h1 offspring s1,
    select_and_clone h pop s = Ok (h1, offspring, s1) ∧
    length offspring = length pop.
Proof.
  intros Hlive. unfold select_and_clone.
  destruct (view_Ok h pop Hlive) as (inds & -> & Hlen). simpl.
  pose proof (select_length 3 inds (length pop) s) as Hk.
  pose proof (select_range 3 inds (length pop) s) as Hrange.
  change (selTournament 3) with select in Hk, Hrange.
  destruct (select inds (length pop) s) as [chosen s1]. simpl in Hk, Hrange.
  assert (Hchosen : Forall (λ i, i < length pop) chosen).
  { destruct inds as [|ind inds].
    - destruct chosen; [constructor|]. simpl in *. lia.
    - rewrite <- Hlen. by apply Hrange. }
  destruct (pick_Ok pop chosen Hchosen) as (picked & -> & Hin & Hlen'). simpl.
  assert (Hpicked : Forall (λ r, is_Some (h !! r)) picked).
  { eapply Forall_impl; [exact Hin|]. rewrite Forall_forall in Hlive. auto. }
  destruct (clone_all_shape h picked Hpicked) as (sel & _ & ->). simpl.
  eexists _, _, _. split; [done|]. rewrite length_seq. lia.
Qed.

Lemma cx_step_Ok CXPB h s log c1 c2 :
  is_Some (h !! c1) → is_Some (h !! c2) →
  ∃ acc, cx_step CXPB (h, s, log) (c1, c2) = Ok acc.
Proof.
  intros [i1 H1] [i2 H2]. unfold cx_step, deref.
  destruct (random_random s) as [x s1]. destruct (Qlt_le_dec x CXPB); [|eauto].
  rewrite H1, H2. simpl.
  destruct (mate (alleles i1) (alleles i2) s1) as [[a1 a2] s2]. eauto.
Qed.

Lemma mut_step_Ok MUTPB h s log r :
  is_Some (h !! r) → ∃ acc, mut_step MUTPB (h, s, log) r = Ok acc.
Proof.
  intros [i H1]. unfold mut_step, deref.
  destruct (random_random s) as [x s1]. destruct (Qlt_le_dec x MUTPB); [|eauto].
  rewrite H1. simpl. destruct (mutate (alleles i) s1) as [a s2]. eauto.
Qed.

Lemma crossover_pass_Ok CXPB h offspring s :
  Forall (λ r, is_Some (h !! r)) offspring →
  ∃ h' s' log, crossover_pass CXPB h offspring s = Ok (h', s', log) ∧
               length h' = length h.
Proof.
  intros Hlive. rewrite Forall_forall in Hlive. unfold crossover_pass.
  destruct (foldM_total (λ acc, length acc.1.1 = length h) (cx_step CXPB)
              (adjacent_pairs offspring) (h, s, [])) as ([[h' s'] log] & Hfold & Hlen).
  - done.
  - intros [[h1 s1] log1] [c1 c2] Hp Hlen. simpl in Hlen.
    destruct (adjacent_pairs_elem offspring _ Hp) as [Hc1 Hc2]. simpl in *.
    destruct (cx_step_Ok CXPB h1 s1 log1 c1 c2) as [[[h2 s2] log2] Hstep].
    { apply lookup_lt_is_Some. rewrite Hlen. apply lookup_lt_is_Some. auto. }
    { apply lookup_lt_is_Some. rewrite Hlen. apply lookup_lt_is_Some. auto. }
    eexists. split; [done|]. simpl.
    destruct (cx_step_frame _ _ _ _ _ _ _ _ _ Hstep) as [-> _]. done.
  - by exists h', s', log.
Qed.

Lemma mutation_pass_Ok MUTPB h offspring s :
  Forall (λ r, is_Some (h !! r)) offspring →
  ∃ h' s' log, mutation_pass MUTPB h offspring s = Ok (h', s', log) ∧
               length h' = length h.
Proof.
  intros Hlive. rewrite Forall_forall in Hlive. unfold mutation_pass.
  destruct (foldM_total (λ acc, length acc.1.1 = length h) (mut_step MUTPB)
              offspring (h, s, [])) as ([[h' s'] log] & Hfold & Hlen).
  - done.
  - intros [[h1 s1] log1] r Hr Hlen. simpl in Hlen.
    destruct (mut_step_Ok MUTPB h1 s1 log1 r) as [[[h2 s2] log2] Hstep].
    { apply lookup_lt_is_Some. rewrite Hlen. apply lookup_lt_is_Some. auto. }
    eexists. split; [done|]. simpl.
    destruct (mut_step_frame _ _ _ _ _ _ _ _ Hstep) as [-> _]. done.
  - by exists h', s', log.
Qed.

Lemma variation_Ok CXPB MUTPB h pop s :
  Forall (λ r, is_Some (h !! r)) pop →
  ∃ h3 offspring s3 t,
    variation CXPB MUTPB h pop s = Ok (h3, offspring, s3, t) ∧
    length offspring = length pop.
Proof.
  intros Hlive. unfold variation.
  destruct (select_and_clone_Ok h pop s Hlive) as (h1 & off & s1 & Hsel & Hlen).
  destruct (select_and_clone_offspring _ _ _ _ _ _ Hsel) as (_ & Hlive1 & _).
  rewrite Hsel. simpl.
  destruct (crossover_pass_Ok CXPB h1 off s1 Hlive1) as (h2 & s2 & m & -> & Hlen2).
  simpl.
  destruct (mutation_pass_Ok MUTPB h2 off s2) as (h3 & s3 & u & -> & Hlen3).
  { eapply Forall_impl; [exact Hlive1|]. intros r.
    rewrite !lookup_lt_is_Some. lia. }
  simpl. by eexists _, _, _, _.
Qed.

(** With a selector that honours its contract, a generation from a
    population of live objects runs to completion, whatever [CXPB] and
    [MUTPB] are. *)
Lemma generation_Ok CXPB MUTPB st :
  Forall (λ r, is_Some (heap st !! r)) (pop st) → pop st ≠ [] →
  ∃ st', generation CXPB MUTPB st = Ok st' ∧ length (pop st') = length (pop st).
Proof.
  intros Hlive Hne. unfold generation.
  destruct (variation_Ok CXPB MUTPB (heap st) (pop st) (rng st) Hlive)
    as (h3 & off & s3 & t & Hvar & Hlen).
  destruct (variation_offspring _ _ _ _ _ _ _ _ _ Hvar) as [_ Hlive3].
  rewrite Hvar. simpl.
  destruct (reevaluate_spec h3 off Hlive3) as (h4 & Hre & _ & _).
  pose proof (reevaluate_valid _ _ _ _ Hlive3 Hre) as Hval.
  rewrite Hre. simpl.
  destruct (gather_fits_Ok _ _ Hval) as [fits Hfits]. rewrite Hfits. simpl.
  destruct (stats_Ok float_pow fits) as [rep ->].
  { apply gather_fits_valid in Hfits as [_ Hlen'].
    destruct fits; [|done]. simpl in Hlen'. destruct (pop st); [done|].
    simpl in Hlen. lia. }
  simpl. eexists. split; [done|]. done.
Qed.

(** With such a selector the loop also ends normally: no exception is
    raised on the way. *)
Lemma evolve_returns CXPB MUTPB fuel st :
  consistent st → pop st ≠ [] → 1000 ≤ fuel + g st →
  ∃ st', evolve CXPB MUTPB fuel st = Some (Ok st').
Proof.
  revert st. induction fuel as [|fuel IH]; intros st Hcons Hne Hfuel.
  - destruct (evolve_terminates CXPB MUTPB 0 st Hfuel) as (r & Hev & _).
    rewrite Hev. simpl in Hev. destruct Hcons as [_ Hfits].
    apply gather_fits_valid in Hfits as [_ Hlen].
    unfold continue in Hev. destruct (fits st) as [|v vs] eqn:Hf.
    { destruct (pop st); [done|]. simpl in Hlen. lia. }
    simpl in Hev. destruct (_ && _); [done|]. injection Hev as <-. eauto.
  - cbn [evolve]. pose proof Hcons as [Hval Hfits].
    apply gather_fits_valid in Hfits as [_ Hlen].
    unfold continue. destruct (fits st) as [|v vs] eqn:Hf.
    { destruct (pop st); [done|]. simpl in Hlen. lia. }
    simpl. destruct (_ && _) eqn:Hc; [|eauto].
    apply andb_true_iff in Hc as [_ Hg%Nat.ltb_lt].
    destruct (generation_Ok CXPB MUTPB st) as (st1 & Hgen & Hlen1); [|done|].
    { eapply Forall_impl; [exact Hval|]. by intros r (ind & -> & _). }
    rewrite Hgen. apply IH.
    + by eapply generation_consistent.
    + intros Hnil. rewrite Hnil in Hlen1. destruct (pop st); [done|]. simpl in Hlen1. lia.
    + destruct (generation_counter _ _ _ _ Hgen) as [-> _]. lia.
Qed.

Lemma main_returns fuel s :
  1000 ≤ fuel → ∃ st, main fuel s = Some (Ok st).
Proof.
  intros Hfuel. unfold main.
  destruct (initial_Ok s) as (st0 & -> & Hcons & Hlen).
  apply evolve_returns; [done| |lia].
  intros Hnil. by rewrite Hnil in Hlen.
Qed.

End Progress.

(** ** Pairing in the crossover pass *)





(** ** The reference instance honours the selector contract *)

Lemma draw_position_lcg (n : nat) (s : Z) :
  0 < n → (draw_position lcg_randint n s).1 < n.
Proof.
  intros Hn. unfold draw_position, lcg_randint. simpl.
  pose proof (Z.mod_pos_bound (lcg_next s / 65536) (Z.of_nat n - 1 - 0 + 1)) as Hb.
  lia.
Qed.

Lemma better_range (inds : list Individual) (i j n : nat) :
  i < n → j < n → better inds i j < n.
Proof.
  intros Hi Hj. unfold better.
  destruct (inds !! i) as [a|]; [|done]. destruct (inds !! j) as [b|]; [|done].
  by destruct (tuple_lt (wvalues a) (wvalues b)).
Qed.

Lemma tournament_range (inds : list Individual) (t best : nat) (s : Z) :
  best < length inds →
  (tournament lcg_randint inds t best s).1 < length inds.
Proof.
  revert best s. induction t as [|t IH]; intros best s Hbest; cbn [tournament]; [done|].
  pose proof (draw_position_lcg (length inds) s) as Hdraw.
  destruct (draw_position lcg_randint (length inds) s) as [i s1]. simpl in Hdraw.
  apply IH. apply better_range; [done|]. apply Hdraw. lia.
Qed.

Lemma spec_selTournament_length (ts : nat) (inds : list Individual) (k : nat) (s : Z) :
  length (spec_selTournament lcg_randint ts inds k s).1 = k.
Proof.
  revert s. induction k as [|k IH]; intros s; cbn [spec_selTournament]; [done|].
  destruct (draw_position lcg_randint (length inds) s) as [first s1].
  destruct (tournament lcg_randint inds (ts - 1) first s1) as [winner s2].
  specialize (IH s2).
  destruct (spec_selTournament lcg_randint ts inds k s2) as [rest s3].
  simpl in *. by rewrite IH.
Qed.

Lemma spec_selTournament_range (ts : nat) (inds : list Individual) (k : nat) (s : Z) :
  inds ≠ [] →
  Forall (λ i, i < length inds) (spec_selTournament lcg_randint ts inds k s).1.
Proof.
  intros Hne. assert (Hpos : 0 < length inds) by (destruct inds; [done|simpl; lia]).
  revert s. induction k as [|k IH]; intros s; cbn [spec_selTournament]; [constructor|].
  pose proof (draw_position_lcg (length inds) s Hpos) as Hdraw.
  destruct (draw_position lcg_randint (length inds) s) as [first s1]. simpl in Hdraw.
  pose proof (tournament_range inds (ts - 1) first s1 Hdraw) as Hwin.
  destruct (tournament lcg_randint inds (ts - 1) first s1) as [winner s2].
  specialize (IH s2).
  destruct (spec_selTournament lcg_randint ts inds k s2) as [rest s3].
  simpl in *. by constructor.
Qed.

#[global] Instance lcg_selector : SelectorContract lcg_tools.
Proof.
  split.
  - apply spec_selTournament_length.
  - apply spec_selTournament_range.
Qed.

(** ** Two runs side by side *)

Lemma same_outcome_bind {A1 A2 B1 B2} (R : A1 → A2 → Prop) (R' : B1 → B2 → Prop)
    (m1 : result A1) (m2 : result A2) (f1 : A1 → result B1) (f2 : A2 → result B2) :
  same_outcome R m1 m2 →
  (∀ a b, R a b → same_outcome R' (f1 a) (f2 b)) →
  same_outcome R' (m1 ≫= f1) (m2 ≫= f2).
Proof. destruct m1, m2; simpl; auto; done. Qed.

Lemma same_outcome_impl {A B} (R R' : A → B → Prop) (m1 : result A) (m2 : result B) :
  same_outcome R m1 m2 → (∀ a b, R a b → R' a b) → same_outcome R' m1 m2.
Proof. destruct m1, m2; simpl; auto. Qed.

Lemma foldM_sim {A1 A2 B1 B2} (R : A1 → A2 → Prop) (E : B1 → B2 → Prop)
    (f1 : A1 → B1 → result A1) (f2 : A2 → B2 → result A2)
    (l1 : list B1) (l2 : list B2) (acc1 : A1) (acc2 : A2) :
  Forall2 E l1 l2 → R acc1 acc2 →
  (∀ a1 a2 x1 x2, R a1 a2 → E x1 x2 → same_outcome R (f1 a1 x1) (f2 a2 x2)) →
  same_outcome R (foldM f1 l1 acc1) (foldM f2 l2 acc2).
Proof.
  intros HF. revert acc1 acc2.
  induction HF as [|x1 x2 l1 l2 Hx _ IH]; intros acc1 acc2 Hacc Hstep; simpl.
  - done.
  - eapply same_outcome_bind; [by apply Hstep|]. intros a b Hab. by apply IH.
Qed.

Lemma forM_sim {A1 A2 B1 B2} (R : B1 → B2 → Prop)
    (f1 : A1 → result B1) (f2 : A2 → result B2) (l1 : list A1) (l2 : list A2) :
  Forall2 (λ x1 x2, same_outcome R (f1 x1) (f2 x2)) l1 l2 →
  same_outcome (Forall2 R) (forM f1 l1) (forM f2 l2).
Proof.
  induction 1 as [|x1 x2 l1 l2 Hx _ IH]; simpl.
  - constructor.
  - eapply same_outcome_bind; [exact Hx|]. intros y1 y2 Hy.
    eapply same_outcome_bind; [exact IH|]. intros ys1 ys2 Hys. simpl.
    by constructor.
Qed.

Lemma forM_ext2 {A1 A2 B} (f1 : A1 → result B) (f2 : A2 → result B)
    (l1 : list A1) (l2 : list A2) :
  Forall2 (λ x1 x2, f1 x1 = f2 x2) l1 l2 → forM f1 l1 = forM f2 l2.
Proof.
  induction 1 as [|x1 x2 l1 l2 Hx _ IH]; simpl; [done|]. by rewrite Hx, IH.
Qed.

Lemma adjacent_pairs_Forall2 {A B} (R : A → B → Prop) (l1 : list A) (l2 : list B) :
  Forall2 R l1 l2 →
  Forall2 (λ p q, R p.1 q.1 ∧ R p.2 q.2) (adjacent_pairs l1) (adjacent_pairs l2).
Proof.
  intros HF. apply Forall2_same_length_lookup_2.
  - rewrite !adjacent_pairs_length. by rewrite (Forall2_length _ _ _ HF).
  - intros k [a1 b1] [a2 b2] [Ha1 Hb1]%adjacent_pairs_lookup [Ha2 Hb2]%adjacent_pairs_lookup.
    simpl. split; by eapply Forall2_lookup_lr.
Qed.

Lemma zip_seq_elem (a b n r1 r2 : nat) :
  (r1, r2) ∈ zip (seq a n) (seq b n) ↔ ∃ i, i < n ∧ r1 = a + i ∧ r2 = b + i.
Proof.
  rewrite list_elem_of_lookup. split.
  - intros [i Hi]. apply lookup_zip_with_Some in Hi as (x & y & [= -> ->] & Hx & Hy).
    apply lookup_seq in Hx as [-> ?]. apply lookup_seq in Hy as [-> ?]. eauto.
  - intros (i & Hi & -> & ->). exists i. apply lookup_zip_with_Some.
    exists (a + i), (b + i). split_and!; [done|by apply lookup_seq..].
Qed.

Lemma zip_seq_one_to_one (a b n : nat) : one_to_one (zip (seq a n) (seq b n)).
Proof.
  intros r1 r2 r1' r2' (i & _ & -> & ->)%zip_seq_elem (j & _ & -> & ->)%zip_seq_elem.
  lia.
Qed.

Lemma zip_seq_Forall2 (a b n : nat) :
  Forall2 (λ r1 r2, (r1, r2) ∈ zip (seq a n) (seq b n)) (seq a n) (seq b n).
Proof.
  apply Forall2_same_length_lookup_2; [by rewrite !length_seq|].
  intros i r1 r2 [-> ?]%lookup_seq [-> _]%lookup_seq.
  apply zip_seq_elem. eauto.
Qed.

Lemma lookup_write_eq (w : Write) (h : list Individual) (r : nat) :
  write w h r !! r = apply_write w <$> h !! r.
Proof. destruct w; apply list_lookup_alter_eq. Qed.

(** The same write at paired addresses keeps two stores aligned. *)
Lemma write_aligned (w : Write) (h1 h2 : list Individual) rel (c1 c2 : nat) :
  one_to_one rel → aligned h1 h2 rel → (c1, c2) ∈ rel →
  aligned (write w h1 c1) (write w h2 c2) rel.
Proof.
  intros Hbij Hal Hc r1 r2 Hr. destruct (Hal r1 r2 Hr) as [Hsome Heq]. split.
  { apply lookup_lt_is_Some. rewrite length_write. by apply lookup_lt_is_Some. }
  destruct (decide (r1 = c1)) as [->|Hne].
  - assert (r2 = c2) as -> by (by apply (Hbij c1 r2 c1 c2)).
    by rewrite !lookup_write_eq, Heq.
  - assert (r2 ≠ c2).
    { intros ->. apply Hne. by apply (Hbij r1 c2 c1 c2). }
    by rewrite !lookup_write_ne.
Qed.

Lemma aligned_deref (h1 h2 : list Individual) rel (r1 r2 : nat) :
  aligned h1 h2 rel → (r1, r2) ∈ rel →
  ∃ ind, deref h1 r1 = Ok ind ∧ deref h2 r2 = Ok ind.
Proof.
  intros Hal Hr. destruct (Hal r1 r2 Hr) as [[ind Hind] Heq].
  exists ind. unfold deref. by rewrite <- Heq, Hind.
Qed.

Section Determinism.

Context {RNG : Type} `{T : Tools RNG}.
Implicit Types (h : list Individual) (s : RNG) (st : State RNG)
  (rel : list (nat * nat)).

Lemma cx_step_sim CXPB rel h1 h2 s log1 log2 c1 c2 d1 d2 :
  one_to_one rel → aligned h1 h2 rel → (c1, d1) ∈ rel → (c2, d2) ∈ rel →
  same_outcome (agree rel)
    (cx_step CXPB (h1, s, log1) (c1, c2)) (cx_step CXPB (h2, s, log2) (d1, d2)).
Proof.
  intros Hbij Hal H1 H2. unfold cx_step.
  destruct (random_random s) as [x s1].
  destruct (Qlt_le_dec x CXPB); [|by split].
  destruct (aligned_deref _ _ _ _ _ Hal H1) as (i1 & -> & ->).
  destruct (aligned_deref _ _ _ _ _ Hal H2) as (i2 & -> & ->). simpl.
  destruct (mate (alleles i1) (alleles i2) s1) as [[a1 a2] s2]. simpl.
  split; [|done]. simpl.
  apply (write_aligned DelValues); [done| |done].
  apply (write_aligned DelValues); [done| |done].
  apply (write_aligned (SetAlleles a2)); [done| |done].
  by apply (write_aligned (SetAlleles a1)).
Qed.

Lemma mut_step_sim MUTPB rel h1 h2 s log1 log2 c d :
  one_to_one rel → aligned h1 h2 rel → (c, d) ∈ rel →
  same_outcome (agree rel)
    (mut_step MUTPB (h1, s, log1) c) (mut_step MUTPB (h2, s, log2) d).
Proof.
  intros Hbij Hal H1. unfold mut_step.
  destruct (random_random s) as [x s1].
  destruct (Qlt_le_dec x MUTPB); [|by split].
  destruct (aligned_deref _ _ _ _ _ Hal H1) as (i & -> & ->). simpl.
  destruct (mutate (alleles i) s1) as [a s2]. simpl.
  split; [|done]. simpl.
  apply (write_aligned DelValues); [done| |done].
  by apply (write_aligned (SetAlleles a)).
Qed.

Lemma crossover_pass_sim CXPB rel h1 h2 s off1 off2 :
  one_to_one rel → aligned h1 h2 rel →
  Forall2 (λ r1 r2, (r1, r2) ∈ rel) off1 off2 →
  same_outcome (agree rel)
    (crossover_pass CXPB h1 off1 s) (crossover_pass CXPB h2 off2 s).
Proof.
  intros Hbij Hal Hoff. unfold crossover_pass.
  eapply (foldM_sim (agree rel)).
  - apply (adjacent_pairs_Forall2 _ _ _ Hoff).
  - by split.
  - intros [[a1 s1] l1] [[a2 s2] l2] [c1 c2] [d1 d2] [Ha Hs] [Hc Hd].
    simpl in *. subst s2. by apply cx_step_sim.
Qed.

Lemma mutation_pass_sim MUTPB rel h1 h2 s off1 off2 :
  one_to_one rel → aligned h1 h2 rel →
  Forall2 (λ r1 r2, (r1, r2) ∈ rel) off1 off2 →
  same_outcome (agree rel)
    (mutation_pass MUTPB h1 off1 s) (mutation_pass MUTPB h2 off2 s).
Proof.
  intros Hbij Hal Hoff. unfold mutation_pass.
  eapply (foldM_sim (agree rel)).
  - exact Hoff.
  - by split.
  - intros [[a1 s1] l1] [[a2 s2] l2] c d [Ha Hs] Hc.
    simpl in *. subst s2. by apply mut_step_sim.
Qed.

Lemma invalid_inds_sim rel h1 h2 off1 off2 :
  aligned h1 h2 rel → Forall2 (λ r1 r2, (r1, r2) ∈ rel) off1 off2 →
  same_outcome (Forall2 (λ r1 r2, (r1, r2) ∈ rel))
    (invalid_inds h1 off1) (invalid_inds h2 off2).
Proof.
  intros Hal. induction 1 as [|r1 r2 off1 off2 Hr _ IH]; simpl.
  - constructor.
  - destruct (aligned_deref _ _ _ _ _ Hal Hr) as (ind & -> & ->). simpl.
    eapply same_outcome_bind; [exact IH|]. intros l1 l2 Hl. simpl.
    destruct (valid ind); [done|]. by constructor.
Qed.

Lemma reevaluate_sim rel h1 h2 off1 off2 :
  one_to_one rel → aligned h1 h2 rel →
  Forall2 (λ r1 r2, (r1, r2) ∈ rel) off1 off2 →
  same_outcome (λ a b, aligned a.1 b.1 rel)
    (reevaluate h1 off1) (reevaluate h2 off2).
Proof.
  intros Hbij Hal Hoff. unfold reevaluate.
  eapply same_outcome_bind; [by apply invalid_inds_sim|].
  intros l1 l2 Hl.
  eapply (foldM_sim (λ a b, aligned a.1 b.1 rel)); [exact Hl|done|].
  intros [a1 c1] [a2 c2] r1 r2 Ha Hr. simpl in Ha. unfold eval_step.
  destruct (aligned_deref _ _ _ _ _ Ha Hr) as (ind & -> & ->). simpl.
  by apply (write_aligned (SetValues (evaluate (alleles ind)))).
Qed.

Lemma aligned_forM {B} rel h1 h2 off1 off2 (f : Individual → result B) :
  aligned h1 h2 rel → Forall2 (λ r1 r2, (r1, r2) ∈ rel) off1 off2 →
  forM (λ r, ind ← deref h1 r; f ind) off1 = forM (λ r, ind ← deref h2 r; f ind) off2.
Proof.
  intros Hal Hoff. apply forM_ext2. eapply Forall2_impl; [exact Hoff|].
  intros r1 r2 Hr. by destruct (aligned_deref _ _ _ _ _ Hal Hr) as (ind & -> & ->).
Qed.

Lemma aligned_view rel h1 h2 off1 off2 :
  aligned h1 h2 rel → Forall2 (λ r1 r2, (r1, r2) ∈ rel) off1 off2 →
  view h1 off1 = view h2 off2.
Proof.
  intros Hal Hoff. unfold view. apply forM_ext2. eapply Forall2_impl; [exact Hoff|].
  intros r1 r2 Hr. by destruct (aligned_deref _ _ _ _ _ Hal Hr) as (ind & -> & ->).
Qed.

Lemma aligned_gather_fits rel h1 h2 off1 off2 :
  aligned h1 h2 rel → Forall2 (λ r1 r2, (r1, r2) ∈ rel) off1 off2 →
  gather_fits h1 off1 = gather_fits h2 off2.
Proof. intros Hal Hoff. by apply (aligned_forM rel). Qed.

(** Selection and cloning in two stores that show the same population: the
    same positions are chosen, and the clones are aligned. *)
Lemma select_and_clone_sim h1 h2 pop1 pop2 s :
  view h1 pop1 = view h2 pop2 →
  same_outcome
    (λ a b, a.2 = b.2 ∧ one_to_one (zip a.1.2 b.1.2) ∧
            aligned a.1.1 b.1.1 (zip a.1.2 b.1.2) ∧
            Forall2 (λ r1 r2, (r1, r2) ∈ zip a.1.2 b.1.2) a.1.2 b.1.2)
    (select_and_clone h1 pop1 s) (select_and_clone h2 pop2 s).
Proof.
  intros Hview. unfold select_and_clone. rewrite Hview.
  destruct (view h2 pop2) as [inds|e] eqn:Hv2; simpl; [|done].
  pose proof Hview as Hv1. apply forM_Ok in Hv1, Hv2.
  pose proof (Forall2_length _ _ _ Hv1) as Hlen1.
  pose proof (Forall2_length _ _ _ Hv2) as Hlen2.
  rewrite Hlen1, <- Hlen2.
  destruct (select inds (length pop2) s) as [chosen s1].
  eapply same_outcome_bind.
  { apply (forM_sim (λ r1 r2, ∃ ind, h1 !! r1 = Some ind ∧ h2 !! r2 = Some ind)).
    apply Forall2_same_length_lookup_2; [done|]. intros k i i' Hi Hi'.
    assert (i' = i) as -> by congruence.
    destruct (pop1 !! i) as [r1|] eqn:Hr1.
    - destruct (Forall2_lookup_l _ _ _ _ _ Hv1 Hr1) as (ind & Hind & Hd1).
      destruct (Forall2_lookup_r _ _ _ _ _ Hv2 Hind) as (r2 & -> & Hd2).
      simpl. exists ind. by split; apply deref_Ok.
    - apply lookup_ge_None in Hr1.
      rewrite (proj2 (lookup_ge_None pop2 i)) by lia. done. }
  intros picked1 picked2 Hpicked.
  assert (Hsel : ∃ sel, Forall2 (λ r ind, h1 !! r = Some ind) picked1 sel ∧
                        Forall2 (λ r ind, h2 !! r = Some ind) picked2 sel).
  { clear -Hpicked. induction Hpicked as [|r1 r2 p1 p2 (ind & H1 & H2) _ (sel & IH1 & IH2)].
    - exists []. split; constructor.
    - exists (ind :: sel). split; by constructor. }
  destruct Hsel as (sel & Hsel1 & Hsel2).
  rewrite (clone_all_Ok _ _ _ Hsel1), (clone_all_Ok _ _ _ Hsel2). simpl.
  rewrite <- (Forall2_length _ _ _ Hpicked).
  pose proof (Forall2_length _ _ _ Hsel1) as Hlen.
  split_and!.
  - done.
  - apply zip_seq_one_to_one.
  - intros r1 r2 (i & Hi & -> & ->)%zip_seq_elem.
    rewrite !lookup_app_r by lia.
    replace (length h1 + i - length h1) with i by lia.
    replace (length h2 + i - length h2) with i by lia.
    split; [|done]. apply lookup_lt_is_Some. lia.
  - apply zip_seq_Forall2.
Qed.

(** One generation, run in two stores that show the same population with
    the same random source: the same outcome. *)
Lemma generation_sim CXPB MUTPB st1 st2 :
  same_run st1 st2 →
  same_outcome same_run (generation CXPB MUTPB st1) (generation CXPB MUTPB st2).
Proof.
  intros (Hview & Hrng & Hfits & Hg & Hout). unfold generation, variation.
  rewrite <- Hrng, <- Hg, <- Hout.
  eapply same_outcome_bind.
  { eapply same_outcome_bind; [by apply select_and_clone_sim|].
    intros [[h1 off1] s1] [[h2 off2] s2] (Hs & Hbij & Hal & Hoff). simpl in *. subst s2.
    eapply same_outcome_bind; [by apply (crossover_pass_sim CXPB (zip off1 off2))|].
    intros [[h1' s1'] m1] [[h2' s2'] m2] [Hal' Hs']. simpl in *. subst s2'.
    eapply same_outcome_bind; [by apply (mutation_pass_sim MUTPB (zip off1 off2))|].
    intros [[h1'' s1''] u1] [[h2'' s2''] u2] [Hal'' Hs'']. simpl in *. subst s2''.
    instantiate (1 := λ a b, a.1.2 = b.1.2 ∧ one_to_one (zip a.1.1.2 b.1.1.2) ∧
      aligned a.1.1.1 b.1.1.1 (zip a.1.1.2 b.1.1.2) ∧
      Forall2 (λ r1 r2, (r1, r2) ∈ zip a.1.1.2 b.1.1.2) a.1.1.2 b.1.1.2).
    simpl. done. }
  intros [[[h1 off1] s1] t1] [[[h2 off2] s2] t2] (Hs & Hbij & Hal & Hoff).
  simpl in *. subst s2.
  eapply same_outcome_bind; [by apply (reevaluate_sim (zip off1 off2))|].
  intros [h1' c1] [h2' c2] Hal'. simpl in Hal'.
  rewrite (aligned_gather_fits _ _ _ _ _ Hal' Hoff).
  destruct (gather_fits h2' off2) as [fits|e]; simpl; [|done].
  destruct (stats float_pow fits) as [rep|e]; simpl; [|done].
  split_and!; simpl; [|done..]. by eapply aligned_view.
Qed.

Lemma continue_same st1 st2 : same_run st1 st2 → continue st1 = continue st2.
Proof. intros (_ & _ & Hfits & Hg & _). unfold continue. by rewrite Hfits, Hg. Qed.

Lemma generations_sim CXPB MUTPB n st1 st2 :
  same_run st1 st2 →
  same_outcome same_run (generations CXPB MUTPB n st1) (generations CXPB MUTPB n st2).
Proof.
  revert st1 st2. induction n as [|n IH]; intros st1 st2 Hsame; simpl; [done|].
  rewrite (continue_same _ _ Hsame).
  destruct (continue st2) as [[|]|e]; simpl; [|done..].
  eapply same_outcome_bind; [by apply generation_sim|]. auto.
Qed.

Lemma evolve_sim CXPB MUTPB fuel st1 st2 :
  same_run st1 st2 →
  match evolve CXPB MUTPB fuel st1, evolve CXPB MUTPB fuel st2 with
  | Some r1, Some r2 => same_outcome same_run r1 r2
  | None, None => True
  | _, _ => False
  end.
Proof.
  revert st1 st2. induction fuel as [|fuel IH]; intros st1 st2 Hsame; simpl;
    rewrite (continue_same _ _ Hsame); destruct (continue st2) as [[|]|e]; try done.
  pose proof (generation_sim CXPB MUTPB _ _ Hsame) as Hgen.
  destruct (generation CXPB MUTPB st1) as [st1'|e1],
           (generation CXPB MUTPB st2) as [st2'|e2]; simpl in Hgen; try done.
  by apply IH.
Qed.

End Determinism.

Lemma evolve_generations {RNG : Type} `{T : Tools RNG} CXPB MUTPB fuel (st : State RNG) r :
  evolve CXPB MUTPB fuel st = Some r → generations CXPB MUTPB (S fuel) st = r.
Proof.
  revert st. induction fuel as [|fuel IH]; intros st; cbn [evolve generations].
  - destruct (continue st) as [[|]|e]; simpl; congruence.
  - destruct (continue st) as [[|]|e]; simpl; [|congruence..].
    destruct (generation CXPB MUTPB st) as [st'|e]; simpl; [|congruence].
    apply IH.
Qed.

(** C9.  The loop is a function of the individuals in the population and of
    the random source.  Two runs that start with the same random source and
    the same population, possibly laid out differently in their stores, are
    in step after every number of generations: the same individuals in the
    population, the same random source, and the same statistics printed so
    far, or the same exception.  The same holds for the loop run to its end,
    whose result is that of the generations it ran. *)
Theorem runs_deterministic {RNG : Type} `{T : Tools RNG} (CXPB MUTPB : Q)
    (st1 st2 : State RNG) :
  same_run st1 st2 →
  (∀ n, same_outcome same_run
          (generations CXPB MUTPB n st1) (generations CXPB MUTPB n st2)) ∧
  (∀ fuel, match evolve CXPB MUTPB fuel st1, evolve CXPB MUTPB fuel st2 with
           | Some r1, Some r2 => same_outcome same_run r1 r2
           | None, None => True
           | _, _ => False
           end) ∧
  (∀ fuel r, evolve CXPB MUTPB fuel st1 = Some r →
             generations CXPB MUTPB (S fuel) st1 = r).
Proof.
  intros Hsame. split_and!.
  - intros n. by apply generations_sim.
  - intros fuel. by apply evolve_sim.
  - intros fuel r. apply evolve_generations.
Qed.

Lemma runs_deterministic_witness :
  same_outcome same_run
    (generations (1 # 2) (1 # 5) 3 demo_state)
    (generations (1 # 2) (1 # 5) 3 demo_state').
Proof.
  assert (Hsame : same_run demo_state demo_state').
  { unfold same_run. split_and!; reflexivity. }
  exact (proj1 (runs_deterministic (T := lcg_tools) (1 # 2) (1 # 5)
                  demo_state demo_state' Hsame) 3).
Defined.


(** * Further properties of the script *)

(** ** The evaluator on bit vectors *)

Lemma count_ones_cons (x : Z) (l : list Z) :
  count_ones (x :: l) = (if decide (x = 1%Z) then 1 else 0) + count_ones l.
Proof. unfold count_ones. rewrite filter_cons. by case_decide. Qed.

Lemma py_sumZ_bits (l : list Z) :
  Forall is_bit l → py_sumZ l = Z.of_nat (count_ones l).
Proof.
  induction 1 as [|x l [->| ->] _ IH]; [done|..];
    rewrite py_sumZ_cons, count_ones_cons, IH; case_decide; lia.
Qed.

Lemma count_ones_le (l : list Z) : count_ones l ≤ length l.
Proof. unfold count_ones. apply length_filter. Qed.

Lemma count_ones_full (l : list Z) :
  count_ones l = length l ↔ Forall (λ a, a = 1%Z) l.
Proof.
  induction l as [|x l IH].
  - split; [constructor | done].
  - rewrite count_ones_cons. pose proof (count_ones_le l). simpl. split.
    + intros Hc. case_decide; [|lia]. constructor; [done|]. apply IH. lia.
    + intros [-> Hl]%Forall_cons. rewrite decide_True by done.
      apply IH in Hl. lia.
Qed.

(** X1.  On a genome whose alleles are bits, [evalOneMax] returns the
    one-element tuple holding the number of ones; this number is at most the
    length of the genome, and equals it exactly when every allele is 1. *)
Theorem evalOneMax_counts_the_ones (individual : list Z) :
  Forall is_bit individual →
  evalOneMax individual = [Z.of_nat (count_ones individual)] ∧
  count_ones individual ≤ length individual ∧
  (evalOneMax individual = [Z.of_nat (length individual)]
   ↔ Forall (λ a, a = 1%Z) individual).
Proof.
  intros Hbits. unfold evalOneMax. rewrite (py_sumZ_bits _ Hbits).
  split_and!; [done | apply count_ones_le |].
  rewrite <- count_ones_full. split.
  - intros [= H]. lia.
  - by intros ->.
Qed.

Lemma evalOneMax_counts_the_ones_witness :
  evalOneMax [1; 0; 1; 1]%Z = [3%Z] ∧
  ¬ Forall (λ a, a = 1%Z) [1; 0; 1; 1]%Z.
Proof.
  destruct (evalOneMax_counts_the_ones [1; 0; 1; 1]%Z) as (Heval & _ & Hfull).
  { repeat constructor; by (left + right). }
  split; [exact Heval|]. intros Hall. apply Hfull in Hall. discriminate.
Defined.

(** ** The first population *)

Section FirstPopulation.

Context {RNG : Type} `{T : Tools RNG}.
Implicit Types (h : list Individual) (s : RNG) (r x : nat) (st : State RNG).

Lemma initRepeat_Forall {X} (P : X → Prop) (func : RNG → X * RNG) n s :
  (∀ s', P (func s').1) → Forall P (initRepeat func n s).1.
Proof.
  intros Hfunc. revert s. induction n as [|n IH]; intros s; simpl; [constructor|].
  pose proof (Hfunc s) as Hx. destruct (func s) as [x s1]. specialize (IH s1).
  destruct (initRepeat func n s1) as [xs s2]. simpl in *. by constructor.
Qed.

(** A new individual has 100 alleles and no fitness values. *)
Lemma individual_shape s :
  length (alleles (individual s).1) = 100 ∧ wvalues (individual s).1 = [].
Proof.
  unfold individual. pose proof (initRepeat_length attr_bool 100 s) as Hlen.
  by destruct (initRepeat attr_bool 100 s) as [a s1].
Qed.

Lemma individual_bits `{!RandintContract T} s :
  Forall is_bit (alleles (individual s).1).
Proof.
  unfold individual.
  pose proof (initRepeat_Forall is_bit attr_bool 100 s) as Hbits.
  destruct (initRepeat attr_bool 100 s) as [a s1]. simpl in *. apply Hbits.
  intros s'. unfold attr_bool, is_bit.
  pose proof (randint_range 0 1 s'). lia.
Qed.

Lemma values0_inv h r v :
  values0 h r = Ok v ↔ ∃ ind, h !! r = Some ind ∧ wvalues ind !! 0 = Some v.
Proof.
  unfold values0, deref. destruct (h !! r) as [ind|]; simpl.
  - rewrite from_option_Ok. split; [eauto | by intros (? & [= <-] & ?)].
  - split; [done | by intros (? & ? & _)].
Qed.

(** The assignments of computed fitness values, taken together: each
    addressed individual ends up evaluated, the others are not touched. *)
Lemma assign_fold_spec (ps : list (nat * list Z)) h :
  Forall (λ p, ∃ ind, h !! p.1 = Some ind ∧ p.2 = evalOneMax (alleles ind)) ps →
  ∃ h', foldM assign ps h = Ok h' ∧ length h' = length h ∧
        ∀ x, h' !! x = if decide (x ∈ ps.*1) then evaluated <$> h !! x else h !! x.
Proof.
  revert h. induction ps as [|[r fit] ps IH]; intros h Hps.
  - exists h. split_and!; [done..|]. intros x.
    case_decide as Hx; [by apply elem_of_nil in Hx | done].
  - apply Forall_cons in Hps as [(ind & Hr & Hfit) Hps]. simpl in Hr, Hfit. subst fit.
    cbn [foldM]. rewrite assign_Ok by eauto. simpl.
    destruct (IH (set_values h r (evalOneMax (alleles ind)))) as (h' & Hfold & Hlen & Hlook).
    { eapply Forall_impl; [exact Hps|]. intros [r' fit'] (ind' & Hr' & Hfit').
      simpl in *. destruct (decide (r = r')) as [<-|Hne].
      - eexists. rewrite lookup_set_values_eq, Hr. split; [done|]. simpl. congruence.
      - exists ind'. by rewrite lookup_set_values_ne. }
    exists h'. split_and!; [done | by rewrite Hlen, length_set_values |].
    intros x. rewrite Hlook.
    change (((r, evalOneMax (alleles ind)) :: ps).*1) with (r :: ps.*1).
    destruct (decide (x = r)) as [->|Hne].
    + rewrite lookup_set_values_eq, Hr.
      destruct (decide (r ∈ r :: _)) as [_|Hn]; [|exfalso; apply Hn, list_elem_of_here].
      by case_decide.
    + rewrite lookup_set_values_ne by done.
      destruct (decide (x ∈ ps.*1)) as [Hin|Hnin].
      * by rewrite decide_True by (by apply list_elem_of_further).
      * rewrite decide_False; [done|]. by intros [?|?]%elem_of_cons.
Qed.

Lemma evaluate_population_spec h pop :
  Forall (λ r, is_Some (h !! r)) pop →
  ∃ h', evaluate_population h pop = Ok h' ∧ length h' = length h ∧
        ∀ x, h' !! x = if decide (x ∈ pop) then evaluated <$> h !! x else h !! x.
Proof.
  intros Hlive. unfold evaluate_population.
  assert (Hfit : ∃ fitnesses,
    forM (λ r, ind ← deref h r; Ok (evaluate (alleles ind))) pop = Ok fitnesses ∧
    Forall2 (λ r fit, ∃ ind, h !! r = Some ind ∧ fit = evalOneMax (alleles ind))
      pop fitnesses).
  { unfold deref. induction Hlive as [|r rs [ind Hr] _ (fs & IH1 & IH2)].
    - exists []. split; [done|constructor].
    - exists (evaluate (alleles ind) :: fs). cbn [forM].
      rewrite Hr. simpl. rewrite IH1. simpl. split; [done|]. constructor; eauto. }
  destruct Hfit as (fitnesses & -> & HF). simpl.
  destruct (assign_fold_spec (zip pop fitnesses) h) as (h' & Hfold & Hlen & Hlook).
  { apply Forall_forall. intros [r fit] [i Hi]%list_elem_of_lookup.
    apply lookup_zip_with_Some in Hi as (r' & fit' & [= -> ->] & Hr & Hf).
    simpl. exact (Forall2_lookup_lr _ _ _ _ _ _ HF Hr Hf). }
  exists h'. split_and!; [done..|].
  intros x. rewrite Hlook, (fst_zip pop fitnesses); [done|].
  by rewrite (Forall2_length _ _ _ HF).
Qed.

(** The state in which the loop is entered, read off [initial]. *)
Lemma initial_inv s st :
  initial s = Ok st →
  heap st = evaluated <$> (initRepeat individual 300 s).1 ∧
  pop st = seq 0 300 ∧ rng st = (initRepeat individual 300 s).2 ∧
  g st = 0 ∧ out st = [] ∧
  gather_fits (heap st) (pop st) = Ok (fits st).
Proof.
  unfold initial, population.
  pose proof (initRepeat_length individual 300 s) as Hlen.
  destruct (initRepeat individual 300 s) as [inds s1]. simpl in Hlen.
  cbn [app length]. rewrite Hlen. intros H.
  apply bind_Ok in H as (h' & Heval & H). apply bind_Ok in H as (fits & Hfits & H).
  injection H as <-. simpl.
  destruct (evaluate_population_spec inds (seq 0 300)) as (h2 & Heval' & Hlen2 & Hlook).
  { apply Forall_forall. intros r Hr%elem_of_seq. apply lookup_lt_is_Some. lia. }
  rewrite Heval in Heval'. injection Heval' as <-.
  split_and!; [|done..].
  apply list_eq. intros x. rewrite Hlook, list_lookup_fmap.
  destruct (decide (x ∈ seq 0 300)) as [Hin|Hnin]; [done|].
  rewrite elem_of_seq in Hnin.
  rewrite (proj2 (lookup_ge_None inds x)) by lia. done.
Qed.

End FirstPopulation.

Lemma lcg_randint_range (a b s : Z) :
  (a <= b)%Z → (a <= (lcg_randint a b s).1 <= b)%Z.
Proof.
  intros Hab. unfold lcg_randint. simpl.
  pose proof (Z.mod_pos_bound (lcg_next s / 65536) (b - a + 1)). lia.
Qed.

#[global] Instance lcg_randint_contract : RandintContract lcg_tools.
Proof. split. apply lcg_randint_range. Qed.

(** X2.  When [random.randint] keeps to its bounds, the loop is entered
    with 300 distinct individuals of 100 alleles each, every allele a bit;
    each individual carries as its fitness the number of its ones, a value
    between 0 and 100, and [fits] lists these values in the order of the
    population.  No generation has run and nothing has been printed. *)
Theorem initial_population {RNG : Type} `{T : Tools RNG} `{!RandintContract T} (s : RNG) :
  ∃ st, initial s = Ok st ∧
    pop st = seq 0 300 ∧ length (heap st) = 300 ∧ g st = 0 ∧ out st = [] ∧
    Forall2 (λ r v, ∃ ind,
               heap st !! r = Some ind ∧
               length (alleles ind) = 100 ∧ Forall is_bit (alleles ind) ∧
               wvalues ind = [v] ∧ v = Z.of_nat (count_ones (alleles ind)) ∧
               (0 <= v <= 100)%Z)
            (pop st) (fits st).
Proof.
  destruct (initial_Ok s) as (st & Hinit & _ & _). exists st. split; [done|].
  destruct (initial_inv s st Hinit) as (Hheap & Hpop & _ & Hg & Hout & Hfits).
  pose proof (initRepeat_length individual 300 s) as Hlen.
  pose proof (initRepeat_Forall
                (λ ind, length (alleles ind) = 100 ∧ Forall is_bit (alleles ind))
                individual 300 s) as Hshape.
  destruct (initRepeat individual 300 s) as [inds s1]. simpl in *.
  assert (Hall : Forall (λ ind, length (alleles ind) = 100 ∧ Forall is_bit (alleles ind)) inds).
  { apply Hshape. intros s'. split; [apply individual_shape | apply individual_bits]. }
  split_and!; [done | by rewrite Hheap, length_fmap | done | done |].
  apply forM_Ok in Hfits. eapply Forall2_impl; [exact Hfits|].
  intros r v (ind & Hr & Hv)%values0_inv.
  rewrite Hheap, list_lookup_fmap in Hr.
  destruct (inds !! r) as [ind0|] eqn:Hind0; [|done]. injection Hr as <-.
  rewrite Forall_forall in Hall.
  destruct (Hall ind0) as [Hl Hb]; [by eapply list_elem_of_lookup_2|].
  exists (evaluated ind0). rewrite Hheap, list_lookup_fmap, Hind0. simpl in *.
  unfold evalOneMax in *. rewrite (py_sumZ_bits _ Hb) in *.
  injection Hv as <-. pose proof (count_ones_le (alleles ind0)).
  split_and!; [done..|lia|lia].
Qed.

Lemma initial_population_witness :
  ∃ st, initial (T := lcg_tools) 2024%Z = Ok st ∧
        pop st = seq 0 300 ∧ length (fits st) = 300.
Proof.
  destruct (initial_population (T := lcg_tools) 2024%Z)
    as (st & Hinit & Hpop & _ & _ & _ & Hfits).
  exists st. split_and!; [done..|].
  rewrite <- (Forall2_length _ _ _ Hfits), Hpop. apply length_seq.
Defined.

(** ** What a generation leaves alone *)

Section Frame.

Context {RNG : Type} `{T : Tools RNG}.
Implicit Types (h : list Individual) (s : RNG) (r x : nat) (st : State RNG).

(** The mutation pass changes only the individuals it logs. *)
Lemma mutation_fold_untouched MUTPB rs h s log h' s' log' :
  foldM (mut_step MUTPB) rs (h, s, log) = Ok (h', s', log') →
  ∃ l, log' = log ++ l ∧ ∀ x, x ∉ l → h' !! x = h !! x.
Proof.
  apply (foldM_invariant (λ acc,
    ∃ l, acc.2 = log ++ l ∧ ∀ x, x ∉ l → acc.1.1 !! x = h !! x)).
  - exists []. simpl. by rewrite app_nil_r.
  - intros [[h1 s1] log1] r [[h2 s2] log2] _ HP Hstep. simpl in *.
    destruct HP as (l & -> & Hsame).
    destruct (mut_step_frame _ _ _ _ _ _ _ _ Hstep) as (_ & Hframe & _).
    destruct (mut_step_log _ _ _ _ _ _ _ _ Hstep) as [(-> & ->)|(-> & _)].
    + by exists l.
    + exists (l ++ [r]). rewrite app_assoc. split; [done|].
      intros x Hx. rewrite Hframe.
      * apply Hsame. intros Hin. apply Hx, elem_of_app. by left.
      * intros ->. apply Hx, elem_of_app. right. apply list_elem_of_here.
Qed.

(** Each clone is the copy of a member of the population. *)
Lemma select_and_clone_copies h pop s h1 offspring s1 r :
  select_and_clone h pop s = Ok (h1, offspring, s1) → r ∈ offspring →
  ∃ p ind, p ∈ pop ∧ h !! p = Some ind ∧ h1 !! r = Some ind.
Proof.
  intros (inds & chosen & sel & Hview & _ & HF & -> & ->)%select_and_clone_inv
         [k [-> Hk]%lookup_seq]%list_elem_of_lookup.
  destruct (lookup_lt_is_Some_2 chosen k Hk) as [i Hi].
  destruct (Forall2_lookup_l _ _ _ _ _ HF Hi) as (ind & Hsel & Hind).
  apply forM_Ok in Hview.
  destruct (Forall2_lookup_r _ _ _ _ _ Hview Hind) as (p & Hp & Hd%deref_Ok).
  exists p, ind. split_and!; [by eapply list_elem_of_lookup_2 | done |].
  rewrite lookup_app_r by lia. rewrite <- Hsel. f_equal. lia.
Qed.

Lemma touched_dec (t : Touched) r : touched t r ∨ ¬ touched t r.
Proof.
  unfold touched. destruct (decide (r ∈ mutated t)) as [Hm|Hm]; [by left; right|].
  destruct (decide (Exists (λ p : nat * nat, p.1 = r ∨ p.2 = r) (mated t))) as [He|He].
  - left. left. apply Exists_exists in He as (p & Hp & Hpr). eauto.
  - right. intros [(p & Hp & Hpr)|Hr]; [|done]. apply He, Exists_exists. eauto.
Qed.

End Frame.

Lemma variation_frame {RNG : Type} `{T : Tools RNG} CXPB MUTPB
    (h : list Individual) (pop : list nat) (s : RNG) h3 offspring s3 t x :
  variation CXPB MUTPB h pop s = Ok (h3, offspring, s3, t) →
  is_Some (h !! x) → (x ∉ offspring) ∧ h3 !! x = h !! x.
Proof.
  intros (h1 & s1 & h2 & s2 & Hsel & Hcx & Hmut)%variation_inv [ind Hx].
  destruct (select_and_clone_offspring _ _ _ _ _ _ Hsel) as (_ & _ & Hfresh & _).
  rewrite Forall_forall in Hfresh.
  assert (Hnot : x ∉ offspring).
  { intros Hin. apply Hfresh in Hin. congruence. }
  split; [done|].
  destruct (crossover_fold _ _ _ _ _ _ _ _ Hcx) as (_ & Hframe2 & _).
  destruct (mutation_fold _ _ _ _ _ _ _ _ Hmut) as (_ & Hframe3 & _).
  rewrite Hframe3 by done. rewrite Hframe2.
  - apply select_and_clone_inv in Hsel as (_ & _ & sel & _ & _ & _ & -> & _).
    rewrite Hx. by apply lookup_app_l_Some.
  - intros p Hp. destruct (adjacent_pairs_elem offspring p Hp) as [H1 H2].
    split; intros <-; done.
Qed.

(** X3.  After the two variation passes every offspring is of one of two
    kinds.  Either [toolbox.mate] or [toolbox.mutate] was applied to it, and
    then its fitness is invalid; or neither was, and then it is an exact
    copy, alleles and fitness, of a member of the population it was selected
    from. *)
Theorem untouched_offspring_are_copies {RNG : Type} `{T : Tools RNG} (CXPB MUTPB : Q)
    (h : list Individual) (pop : list nat) (s : RNG) h3 offspring s3 t :
  variation CXPB MUTPB h pop s = Ok (h3, offspring, s3, t) →
  ∀ r, r ∈ offspring →
    (touched t r ∧ invalid_at h3 r) ∨
    (¬ touched t r ∧ ∃ p ind, p ∈ pop ∧ h !! p = Some ind ∧ h3 !! r = Some ind).
Proof.
  intros Hvar r Hr. destruct (touched_dec t r) as [Ht|Hnt].
  - left. split; [done|]. by eapply variation_touched.
  - right. split; [done|].
    apply variation_inv in Hvar as (h1 & s1 & h2 & s2 & Hsel & Hcx & Hmut).
    destruct (select_and_clone_copies _ _ _ _ _ _ _ Hsel Hr) as (p & ind & Hp & Hind & Hr1).
    exists p, ind. split_and!; [done..|].
    destruct (crossover_fold_untouched _ _ _ _ _ _ _ _ Hcx) as (l & Hl & Hsame2).
    destruct (mutation_fold_untouched _ _ _ _ _ _ _ _ Hmut) as (l' & Hl' & Hsame3).
    simpl in Hl, Hl'. subst l l'.
    rewrite Hsame3, Hsame2; [done| |].
    + intros q Hq. split; intros Hc; apply Hnt; left; exists q; auto.
    + intros Hm. apply Hnt. by right.
Qed.

Lemma untouched_offspring_are_copies_witness :
  ∃ h3 offspring s3 t,
    variation (1 # 2) (1 # 5) demo_heap [0; 1; 2; 3; 4] 7%Z = Ok (h3, offspring, s3, t) ∧
    t = mkTouched [(5, 6)] [7] ∧
    ∃ p, p ∈ [0; 1; 2; 3; 4] ∧ h3 !! 9 = demo_heap !! p.
Proof.
  destruct (variation (1 # 2) (1 # 5) demo_heap [0; 1; 2; 3; 4] 7%Z)
    as [[[[h3 offspring] s3] t]|e] eqn:Hvar; [|by vm_compute in Hvar].
  exists h3, offspring, s3, t. split; [done|].
  pose proof (untouched_offspring_are_copies _ _ _ _ _ _ _ _ _ Hvar 9) as Hcopy.
  vm_compute in Hvar. injection Hvar; intros <- <- <- <-. split; [done|].
  destruct Hcopy as [[Ht _]|[_ (p & ind & Hp & Hind & Hr)]].
  - do 4 apply list_elem_of_further. apply list_elem_of_here.
  - exfalso. destruct Ht as [(q & Hq & Hc)|Hm].
    + apply list_elem_of_singleton in Hq as ->. simpl in Hc. by destruct Hc.
    + by apply list_elem_of_singleton in Hm.
  - exists p. split; [done|]. by rewrite Hind.
Defined.

(** X4.  A generation works on new objects only.  Whatever object existed
    before, in particular every member of the previous population, is the
    same afterwards; the new population consists of distinct objects that
    did not exist before. *)
Theorem generation_spares_the_old_population {RNG : Type} `{T : Tools RNG}
    (CXPB MUTPB : Q) (st st' : State RNG) :
  generation CXPB MUTPB st = Ok st' →
  (∀ x, is_Some (heap st !! x) → heap st' !! x = heap st !! x) ∧
  view (heap st') (pop st) = view (heap st) (pop st) ∧
  NoDup (pop st') ∧
  Forall (λ r, heap st !! r = None ∧ is_Some (heap st' !! r)) (pop st').
Proof.
  intros (h3 & off & s3 & t & h4 & calls & fits & rep
          & Hvar & Hre & Hfits & _ & ->)%generation_inv. simpl.
  destruct (variation_offspring _ _ _ _ _ _ _ _ _ Hvar) as [Hnd Hlive].
  destruct (reevaluate_spec h3 off Hlive) as (h4' & Hre' & Hlen4 & Hlook).
  rewrite Hre in Hre'. injection Hre' as <-.
  assert (Hold : ∀ x, is_Some (heap st !! x) → h4 !! x = heap st !! x).
  { intros x Hx. destruct (variation_frame _ _ _ _ _ _ _ _ _ _ Hvar Hx) as [Hnot <-].
    rewrite Hlook, decide_False; [done|]. tauto. }
  split_and!; [done| |done|].
  - unfold view. apply forM_ext2, Forall2_same_length_lookup_2; [done|].
    intros i r r' Hr Hr'. assert (r' = r) as -> by congruence. unfold deref.
    destruct (heap st !! r) as [ind|] eqn:Hind.
    + by rewrite Hold, Hind by (by rewrite Hind).
    + apply variation_inv in Hvar as (h1 & s1 & h2 & s2 & Hsel & _).
      apply select_and_clone_inv in Hsel as (inds & _ & _ & Hview & _).
      apply forM_Ok in Hview.
      destruct (Forall2_lookup_l _ _ _ _ _ Hview Hr) as (ind & _ & Hd%deref_Ok).
      congruence.
  - apply Forall_forall. intros r Hr. split.
    + apply variation_inv in Hvar as (h1 & s1 & h2 & s2 & Hsel & _).
      destruct (select_and_clone_offspring _ _ _ _ _ _ Hsel) as (_ & _ & Hfresh & _).
      rewrite Forall_forall in Hfresh. auto.
    + rewrite Forall_forall in Hlive. apply lookup_lt_is_Some. rewrite Hlen4.
      apply lookup_lt_is_Some. auto.
Qed.

Lemma generation_spares_the_old_population_witness :
  ∃ st', generation (1 # 2) (1 # 5) demo_state = Ok st' ∧
         view (heap st') [0; 1; 2; 3; 4] = Ok demo_heap.
Proof.
  destruct (generation (1 # 2) (1 # 5) demo_state) as [st'|e] eqn:Hgen;
    [|by vm_compute in Hgen].
  exists st'. split; [done|].
  destruct (generation_spares_the_old_population _ _ _ _ Hgen) as (_ & Hview & _).
  exact Hview.
Defined.

(** ** The cached fitness is never stale *)

Section Coherence.

Context {RNG : Type} `{T : Tools RNG}.
Implicit Types (h : list Individual) (s : RNG) (r x : nat) (st : State RNG).

Lemma coherent_evaluated ind : coherent (evaluated ind).
Proof. done. Qed.

Lemma initial_coherent s st r ind :
  initial s = Ok st → heap st !! r = Some ind → coherent ind.
Proof.
  intros (Hheap & _)%initial_inv. rewrite Hheap, list_lookup_fmap.
  destruct (_ !! r) as [ind0|]; [|done]. intros [= <-]. apply coherent_evaluated.
Qed.

Lemma generation_coherent CXPB MUTPB st st' :
  (∀ r ind, r ∈ pop st → heap st !! r = Some ind → coherent ind) →
  generation CXPB MUTPB st = Ok st' →
  ∀ r ind, r ∈ pop st' → heap st' !! r = Some ind → coherent ind.
Proof.
  intros Hcoh (h3 & off & s3 & t & h4 & calls & fits & rep
               & Hvar & Hre & _ & _ & ->)%generation_inv r ind Hr. simpl in *.
  destruct (variation_offspring _ _ _ _ _ _ _ _ _ Hvar) as [_ Hlive].
  destruct (reevaluate_spec h3 off Hlive) as (h4' & Hre' & _ & Hlook).
  rewrite Hre in Hre'. injection Hre' as <-. rewrite Hlook.
  case_decide as Hinv.
  - destruct (h3 !! r) as [ind3|]; [|done]. intros [= <-]. apply coherent_evaluated.
  - intros Hind.
    destruct (untouched_offspring_are_copies _ _ _ _ _ _ _ _ _ Hvar r Hr)
      as [[_ Hinvalid]|[_ (p & ind0 & Hp & Hind0 & Hr3)]].
    + exfalso. apply Hinv. split; [done|]. by apply is_invalid_true.
    + assert (ind = ind0) as -> by congruence. by eapply Hcoh.
Qed.

Lemma reachable_coherent CXPB MUTPB st :
  reachable CXPB MUTPB st →
  ∀ r ind, r ∈ pop st → heap st !! r = Some ind → coherent ind.
Proof.
  induction 1 as [s st Hinit|st st' _ IH _ Hgen].
  - intros r ind _. by eapply initial_coherent.
  - by eapply generation_coherent.
Qed.

Lemma reachable_size `{!SelectorContract T} CXPB MUTPB st :
  reachable CXPB MUTPB st → length (pop st) = 300.
Proof.
  induction 1 as [s st Hinit|st st' Hreach IH _ Hgen].
  - destruct (initial_Ok s) as (st' & Hst' & _ & Hlen). congruence.
  - destruct (reachable_consistent _ _ _ Hreach) as [Hval _].
    destruct (generation_Ok CXPB MUTPB st) as (st'' & Hgen' & Hlen).
    + eapply Forall_impl; [exact Hval|]. by intros r (ind & -> & _).
    + intros Hnil. by rewrite Hnil in IH.
    + assert (st'' = st') as -> by congruence. lia.
Qed.

End Coherence.

Lemma fitness_current_at {RNG : Type} `{T : Tools RNG} CXPB MUTPB (st : State RNG) :
  reachable CXPB MUTPB st →
  Forall2 (λ r v, ∃ ind, heap st !! r = Some ind ∧ coherent ind ∧
                         v = py_sumZ (alleles ind))
          (pop st) (fits st).
Proof.
  intros Hreach. destruct (reachable_consistent _ _ _ Hreach) as [_ Hfits].
  apply forM_Ok in Hfits.
  apply Forall2_same_length_lookup_2; [by eapply Forall2_length|].
  intros i r v Hr Hv.
  pose proof (Forall2_lookup_lr _ _ _ _ _ _ Hfits Hr Hv) as (ind & Hind & H0)%values0_inv.
  exists ind.
  assert (Hcoh : coherent ind).
  { eapply reachable_coherent; [done| |done]. by eapply list_elem_of_lookup_2. }
  split_and!; [done..|].
  unfold coherent, evalOneMax in Hcoh. rewrite Hcoh in H0. by injection H0.
Qed.

(** X5.  In every state the loop test sees, the fitness cached in a member
    of the population is the evaluation of the alleles it has now: its tuple
    is the sum of its alleles, and [fits] lists these sums in the order of
    the population.  No stale fitness survives a generation. *)
Theorem fitness_is_current {RNG : Type} `{T : Tools RNG} (CXPB MUTPB : Q)
    (st : State RNG) :
  reachable CXPB MUTPB st →
  Forall2 (λ r v, ∃ ind, heap st !! r = Some ind ∧
                         wvalues ind = evalOneMax (alleles ind) ∧
                         v = py_sumZ (alleles ind))
          (pop st) (fits st).
Proof. apply fitness_current_at. Qed.

Lemma fitness_is_current_witness :
  ∃ st, reachable (T := lcg_tools) (1 # 2) (1 # 5) st ∧ g st = 1 ∧
        Forall2 (λ r v, ∃ ind, heap st !! r = Some ind ∧
                               wvalues ind = evalOneMax (alleles ind) ∧
                               v = py_sumZ (alleles ind))
                (pop st) (fits st).
Proof.
  destruct reach_first_generation as (st & rep & Hreach & Hg & _).
  exists st. split; [exact Hreach|]. split; [exact Hg|].
  exact (fitness_is_current (1 # 2) (1 # 5) st Hreach).
Defined.

(** ** The size of the population and the result of the run *)

(** X6.  With a selector that answers with [k] positions inside the
    population, the population keeps its size: in every state the loop test
    sees, [pop] holds 300 distinct individuals and [fits] 300 values. *)
Theorem population_size_constant {RNG : Type} `{T : Tools RNG} `{!SelectorContract T}
    (CXPB MUTPB : Q) (st : State RNG) :
  reachable CXPB MUTPB st →
  length (pop st) = 300 ∧ length (fits st) = 300 ∧ NoDup (pop st).
Proof.
  intros Hreach. pose proof (reachable_size _ _ _ Hreach) as Hlen.
  destruct (reachable_consistent _ _ _ Hreach) as [_ Hfits].
  apply gather_fits_valid in Hfits as [_ Hlen'].
  split_and!; [done | lia |].
  destruct Hreach as [s st Hinit|st st' _ _ Hgen].
  - apply initial_inv in Hinit as (_ & -> & _). apply NoDup_seq.
  - apply generation_inv in Hgen
      as (h3 & off & s3 & t & h4 & calls & fits & rep & Hvar & _ & _ & _ & ->).
    simpl. by destruct (variation_offspring _ _ _ _ _ _ _ _ _ Hvar).
Qed.

Lemma population_size_constant_witness :
  ∃ st, reachable (T := lcg_tools) (1 # 2) (1 # 5) st ∧ g st = 1 ∧
        length (pop st) = 300 ∧ length (fits st) = 300 ∧ NoDup (pop st).
Proof.
  destruct reach_first_generation as (st & rep & Hreach & Hg & _).
  exists st. split; [exact Hreach|]. split; [exact Hg|].
  exact (population_size_constant (1 # 2) (1 # 5) st Hreach).
Defined.

(** X7.  With a selector that honours its contract, [main] ends without an
    exception after at most 1000 generations, with a population of 300.
    Unless the generation cap was reached, the final population holds an
    individual whose cached fitness is the sum of its alleles and is at
    least 100; if this individual is a vector of 100 bits, all of them are
    ones: the problem is solved. *)
Theorem main_result {RNG : Type} `{T : Tools RNG} `{!SelectorContract T}
    (fuel : nat) (s : RNG) :
  1000 ≤ fuel →
  ∃ st, main fuel s = Some (Ok st) ∧
    g st ≤ 1000 ∧ length (pop st) = 300 ∧
    (g st = 1000 ∨
     ∃ r ind, r ∈ pop st ∧ heap st !! r = Some ind ∧
       wvalues ind = evalOneMax (alleles ind) ∧
       (100 <= py_sumZ (alleles ind))%Z ∧
       (Forall is_bit (alleles ind) → length (alleles ind) = 100 →
        Forall (λ a, a = 1%Z) (alleles ind))).
Proof.
  intros Hfuel. destruct (main_returns fuel s Hfuel) as [st Hmain].
  exists st. split; [done|]. unfold main in Hmain.
  destruct (initial s) as [st0|e] eqn:Hinit; [|done].
  assert (Hreach0 : reachable (1 # 2) (1 # 5) st0) by (by eapply reach_initial).
  destruct (evolve_reachable _ _ _ _ _ Hreach0 Hmain) as [Hreach Hstop].
  destruct (evolve_terminates (1 # 2) (1 # 5) fuel st0) as (r & Hev & Hr); [lia|].
  rewrite Hmain in Hev. injection Hev as <-.
  destruct (Hr st eq_refl) as (_ & _ & Hcap & _).
  destruct (initial_counter _ _ Hinit) as [Hg0 _]. rewrite Hg0 in Hcap.
  split_and!; [lia | by eapply reachable_size |].
  apply continue_false in Hstop as (m & Hm & [Hbest|Hg]); [|left; lia].
  right. apply py_maxZ_spec in Hm as [[i Hi]%list_elem_of_lookup _].
  pose proof (fitness_current_at _ _ _ Hreach) as Hcur.
  destruct (Forall2_lookup_r _ _ _ _ _ Hcur Hi) as (x & Hx & ind & Hind & Hcoh & ->).
  exists x, ind. split_and!; [by eapply list_elem_of_lookup_2 | done..|].
  intros Hbits Hlen. apply count_ones_full.
  rewrite (py_sumZ_bits _ Hbits) in Hbest.
  pose proof (count_ones_le (alleles ind)). lia.
Qed.

Lemma main_result_witness :
  ∃ st, main (T := lcg_tools) 1000 2024%Z = Some (Ok st) ∧ length (pop st) = 300.
Proof.
  destruct (main_result (T := lcg_tools) 1000 2024%Z) as (st & Hmain & _ & Hlen & _).
  - apply Nat.leb_le. vm_compute. reflexivity.
  - exists st. split; [exact Hmain | exact Hlen].
Defined.

(** ** What is printed and what the loop tests *)

Lemma foldl_max_inject (l : list Z) (x : Z) :
  foldl (λ m y, if Qlt_le_dec m y then y else m) (inject_Z x) (map inject_Z l)
  = inject_Z (foldl (λ m y, if (m <? y)%Z then y else m) x l).
Proof.
  revert x. induction l as [|y l IH]; intros x; [done|]. cbn [map foldl].
  destruct (Qlt_le_dec (inject_Z x) (inject_Z y)) as [Hlt|Hle];
    destruct (Z.ltb_spec x y) as [Hlt'|Hle']; try apply IH.
  - rewrite <- Zlt_Qlt in Hlt. lia.
  - rewrite <- Zle_Qle in Hle. lia.
Qed.

Lemma py_max_inject (l : list Z) (m : Z) :
  py_maxZ l = Ok m → py_max (map inject_Z l) = Ok (inject_Z m).
Proof.
  destruct l as [|x l]; [done|]. cbn [py_maxZ py_max map].
  intros [= <-]. by rewrite foldl_max_inject.
Qed.

(** X9.  The maximum a generation prints is the value the loop test
    compares with 100.  After a generation the last report carries the new
    generation number, its maximum is [max(fits)], and the loop goes on
    exactly when the printed maximum is below 100 and fewer than 1000
    generations have run. *)
Theorem printed_max_drives_loop {RNG : Type} `{T : Tools RNG} (CXPB MUTPB : Q)
    (st st' : State RNG) :
  generation CXPB MUTPB st = Ok st' →
  ∃ rep m,
    last (out st') = Some (g st', rep) ∧
    py_maxZ (fits st') = Ok m ∧ r_max rep = inject_Z m ∧
    (continue st' = Ok true ↔ (r_max rep < 100)%Q ∧ g st' < 1000).
Proof.
  intros (h3 & off & s3 & t & h4 & calls & fits & rep
          & _ & _ & _ & Hstats & ->)%generation_inv. simpl.
  destruct fits as [|v vs]; [done|].
  destruct (py_maxZ (v :: vs)) as [m|e] eqn:Hm; [|done].
  exists rep, m.
  assert (Hmax : r_max rep = inject_Z m).
  { pose proof (py_max_inject _ _ Hm) as HmaxQ.
    apply stats_max in Hstats. rewrite HmaxQ in Hstats. by injection Hstats. }
  split_and!; [apply last_snoc | done | done |].
  rewrite continue_true. cbn [fits g]. rewrite Hm, Hmax.
  change 100%Q with (inject_Z 100). rewrite <- Zlt_Qlt. split.
  - by intros (m' & [= <-] & ? & ?).
  - intros [? ?]. by exists m.
Qed.

Lemma printed_max_drives_loop_witness :
  ∃ st' rep,
    generation (1 # 2) (1 # 5) demo_state = Ok st' ∧
    last (out st') = Some (1, rep) ∧ r_max rep = inject_Z 5 ∧
    continue st' = Ok true.
Proof.
  destruct (generation (1 # 2) (1 # 5) demo_state) as [st'|e] eqn:Hgen;
    [|by vm_compute in Hgen].
  destruct (printed_max_drives_loop _ _ _ _ Hgen) as (rep & m & Hlast & Hm & Hmax & Hc).
  exists st', rep. split; [done|].
  vm_compute in Hgen. injection Hgen as <-.
  simpl in Hm. injection Hm as <-.
  split_and!; [exact Hlast | exact Hmax | reflexivity].
Defined.

(** X10.  The generations are numbered from 1 without a gap: in every
    state the loop test sees, the reports printed so far carry the numbers
    1, 2, ..., [g], in this order. *)
Theorem reports_are_numbered {RNG : Type} `{T : Tools RNG} (CXPB MUTPB : Q)
    (st : State RNG) :
  reachable CXPB MUTPB st → (out st).*1 = seq 1 (g st).
Proof.
  induction 1 as [s st Hinit|st st' _ IH _ Hgen].
  - by destruct (initial_counter _ _ Hinit) as [-> ->].
  - apply generation_inv in Hgen
      as (h3 & off & s3 & t & h4 & calls & fits & rep & _ & _ & _ & _ & ->).
    cbn [out g]. rewrite fmap_app, IH, seq_S. done.
Qed.

Lemma reports_are_numbered_witness :
  ∃ st, reachable (T := lcg_tools) (1 # 2) (1 # 5) st ∧ g st = 1 ∧ (out st).*1 = [1].
Proof.
  destruct reach_first_generation as (st & rep & Hreach & Hg & _).
  exists st. split; [exact Hreach|]. split; [exact Hg|].
  pose proof (reports_are_numbered (1 # 2) (1 # 5) st Hreach) as H.
  rewrite Hg in H. exact H.
Defined.
